(** * A shallow embedding of QuadTree.js (flamurey/quadtree-js 1.1.1)

    The point quadtree of [src/QuadTree.js]: the constructor, [split],
    [getIndexForRect], [hasIntersection], [getIndexForPoint], [insert],
    [retrieve] and [clear].

    Modelling choices.
    - JavaScript numbers used as coordinates are exact rationals ([Q]);
      comparisons are the value comparisons of [Q].  The capacity policy
      and the level are integers ([Z]).  The code computes [right - left]
      and the midpoints in double precision, where they round and
      overflow: what depends on their value is stated over [Doubles], the
      same functions over binary64 floats.
    - A node is a record; [this.nodes] is a list of nodes (the JavaScript
      array, [[]] for a leaf), read by index with stdpp's lookup.
    - Methods mutate [this]; the tree is owned by its root only, so a method
      becomes a function returning the new node.
    - A method call on [undefined] raises [TypeError]; [insert] recurses
      into freshly made children, so it carries a fuel bounding the depth of
      nested calls, and [OutOfFuel] is the model running out of it. *)

From Stdlib Require Import QArith Lqa Floats.
From stdpp Require Import base list numbers.

#[local] Open Scope Z_scope.

(** ** Results of fallible code *)

Inductive res (A : Type) : Type :=
| Ok (a : A)
| TypeError
| OutOfFuel.
Arguments Ok {A} a.
Arguments TypeError {A}.
Arguments OutOfFuel {A}.

#[global] Instance res_ret : MRet res := λ A a, Ok a.

#[global] Instance res_bind : MBind res := λ A B k m,
  match m with
  | Ok a => k a
  | TypeError => TypeError
  | OutOfFuel => OutOfFuel
  end.

(** ** Data model *)

(** [point]: an object with [lon] and [lat]; whatever else it carries is
    opaque to the tree ([payload]). *)
Record Point := mkPoint { lon : Q; lat : Q; payload : nat }.

(** [pRect], and the rectangle handed to the constructor. *)
Record Rect := mkRect { left : Q; bottom : Q; right : Q; top : Q }.

(** [this.bounds]: the constructor's rectangle with [width] and [height]
    stored into it. *)
Record Bounds := mkBounds { rect :> Rect; width : Q; height : Q }.

#[local] Unset Elimination Schemes.
Inductive Quadtree := mkQuadtree {
  max_objects : Z;
  max_levels : Z;
  level : Z;
  bounds : Bounds;
  objects : list Point;
  nodes : list Quadtree
}.
#[local] Set Elimination Schemes.

Definition set_objects (objs : list Point) (this : Quadtree) : Quadtree :=
  mkQuadtree (max_objects this) (max_levels this) (level this) (bounds this)
    objs (nodes this).

Definition set_nodes (nds : list Quadtree) (this : Quadtree) : Quadtree :=
  mkQuadtree (max_objects this) (max_levels this) (level this) (bounds this)
    (objects this) nds.

(** ** Number comparisons *)

Definition Qltb (x y : Q) : bool := negb (Qle_bool y x).
Definition Qgtb (x y : Q) : bool := Qltb y x.
Definition Qleb (x y : Q) : bool := Qle_bool x y.
Definition Qgeb (x y : Q) : bool := Qle_bool y x.

(** ** The constructor *)

(** [v || d] on an optional integer argument: [undefined] and [0] are
    falsy. *)
Definition or_default (v : option Z) (d : Z) : Z :=
  match v with
  | Some x => if x =? 0 then d else x
  | None => d
  end.

(** [width] and [height] are exact differences here; [Doubles.new_Quadtree]
    has them as the code computes them. *)
Definition new_Quadtree (bounds : Rect)
    (max_objects max_levels level : option Z) : Quadtree :=
  mkQuadtree
    (or_default max_objects 10)
    (or_default max_levels 4)
    (or_default level 0)
    (mkBounds bounds (right bounds - left bounds)%Q (top bounds - bottom bounds)%Q)
    [] [].

Definition ALL_NODES : list Z := [0; 1; 2; 3].

(** ** split *)

(** The midpoints are exact here; [Doubles.horMidpoint] and
    [Doubles.verMidpoint] have them as the code computes them. *)
Definition horMidpoint (this : Quadtree) : Q :=
  (left (bounds this) + width (bounds this) / 2)%Q.

Definition verMidpoint (this : Quadtree) : Q :=
  (bottom (bounds this) + height (bounds this) / 2)%Q.

(** Assigning [this.nodes[0]] to [this.nodes[3]] replaces the first four
    entries of the array, all of it when it was [[]]. *)
Definition split (this : Quadtree) : Quadtree :=
  let nextLevel := level this + 1 in
  let horMidpoint := horMidpoint this in
  let verMidpoint := verMidpoint this in
  let b := bounds this in
  let child r :=
    new_Quadtree r (Some (max_objects this)) (Some (max_levels this))
      (Some nextLevel) in
  set_nodes
    ([ child (mkRect horMidpoint (bottom b) (right b) verMidpoint);
       child (mkRect (left b) (bottom b) horMidpoint verMidpoint);
       child (mkRect (left b) verMidpoint horMidpoint (top b));
       child (mkRect horMidpoint verMidpoint (right b) (top b)) ]
     ++ drop 4 (nodes this))
    this.

(** ** Index computations *)

(** [a[i]] for an array [a] and an integer [i]; [None] is [undefined]. *)
Definition at_index {A} (a : list A) (i : Z) : option A :=
  if i <? 0 then None else a !! Z.to_nat i.

(** [this.nodes[i]] *)
Definition node_at (this : Quadtree) (i : Z) : option Quadtree :=
  at_index (nodes this) i.

(** [typeof this.nodes[0] !== 'undefined'] *)
Definition node0_defined (this : Quadtree) : bool :=
  match node_at this 0 with Some _ => true | None => false end.

Definition hasIntersection (this : Quadtree) (pRect : Rect) : bool :=
  negb (Qltb (right pRect) (left (bounds this))
        || Qltb (right (bounds this)) (left pRect)
        || Qltb (top pRect) (bottom (bounds this))
        || Qltb (top (bounds this)) (bottom pRect)).

(** The [for] loop of [getIndexForRect], from index [i] on, [n] iterations
    to go. *)
Fixpoint intersecting (this : Quadtree) (pRect : Rect) (i : Z) (n : nat)
    : res (list Z) :=
  match n with
  | O => Ok []
  | S n' =>
      match node_at this i with
      | None => TypeError
      | Some c =>
          rest ← intersecting this pRect (i + 1) n';
          Ok (if hasIntersection c pRect then i :: rest else rest)
      end
  end.

Definition getIndexForRect (this : Quadtree) (pRect : Rect) : res (list Z) :=
  if Qgeb (left (bounds this)) (left pRect)
     && Qleb (right (bounds this)) (right pRect)
     && Qgeb (bottom (bounds this)) (bottom pRect)
     && Qleb (top (bounds this)) (top pRect)
  then Ok ALL_NODES
  else intersecting this pRect 0 4.

Definition getIndexForPoint (this : Quadtree) (point : Point) : Z :=
  let horizontalMidpoint := (left (bounds this) + width (bounds this) / 2)%Q in
  let verticalMidpoint := (bottom (bounds this) + height (bounds this) / 2)%Q in
  if Qgtb (lon point) horizontalMidpoint then
    if Qgtb (lat point) verticalMidpoint then 3 else 0
  else
    if Qgtb (lat point) verticalMidpoint then 2 else 1.

(** ** insert *)

(** [this.nodes[index].insert(point)], the callee's [insert] being [ins]. *)
Definition insert_at (ins : Point → Quadtree → res Quadtree)
    (index : Z) (point : Point) (this : Quadtree) : res Quadtree :=
  match node_at this index with
  | None => TypeError
  | Some child =>
      child' ← ins point child;
      Ok (set_nodes (<[Z.to_nat index := child']> (nodes this)) this)
  end.

(** The [while] loop of [insert].  [this.objects] is [kept ++ rest] with
    [kept = objects[0..i)] and [rest = objects[i..]]: an iteration either
    splices [objects[i]] out and inserts it into a subnode, or moves [i]
    on. *)
Fixpoint redistribute (ins : Point → Quadtree → res Quadtree)
    (kept rest : list Point) (this : Quadtree) : res Quadtree :=
  match rest with
  | [] => Ok this
  | o :: rest' =>
      let index := getIndexForPoint this o in
      if negb (index =? -1) then
        this' ← insert_at ins index o (set_objects (kept ++ rest') this);
        redistribute ins kept rest' this'
      else
        redistribute ins (kept ++ [o]) rest' this
  end.

(** [fuel] counts the calls of [insert] that may be nested, the outer one
    included: [insert fuel] is [OutOfFuel] exactly when the calls nest
    deeper than [fuel]. *)
Fixpoint insert (fuel : nat) (point : Point) (this : Quadtree)
    : res Quadtree :=
  match fuel with
  | O => OutOfFuel
  | S fuel' =>
      let hasSubNodes := node0_defined this in
      let index := getIndexForPoint this point in
      if hasSubNodes && negb (index =? -1) then
        insert_at (insert fuel') index point this
      else
        let this := set_objects (objects this ++ [point]) this in
        if (Z.of_nat (length (objects this)) >? max_objects this)
           && (level this <? max_levels this)
           && negb hasSubNodes
        then
          let this := if node0_defined this then this else split this in
          redistribute (insert fuel') [] (objects this) this
        else Ok this
  end.

(** ** retrieve *)

(** The loop over [indexes]: [sub] holds, by index, what [retrieve] gives
    on each subnode. *)
Fixpoint collect (sub : list (res (list Point))) (indexes : list Z)
    (returnObjects : list Point) : res (list Point) :=
  match indexes with
  | [] => Ok returnObjects
  | i :: indexes' =>
      match at_index sub i with
      | None => TypeError
      | Some r =>
          found ← r;
          collect sub indexes' (returnObjects ++ found)
      end
  end.

(** [retrieve] changes nothing, so what it gives on the subnodes can be
    tabulated ([retrieve pRect <$> nds]) and looked up for the indices that
    [getIndexForRect] returns. *)
Fixpoint retrieve (pRect : Rect) (this : Quadtree) : res (list Point) :=
  match this with
  | mkQuadtree mo ml lv b objs nds =>
      let returnObjects := objs in
      if node0_defined this then
        indexes ← getIndexForRect this pRect;
        collect (retrieve pRect <$> nds) indexes returnObjects
      else Ok returnObjects
  end.

(** ** clear *)

(** Every subnode is cleared, then [this.nodes] is replaced by [[]]. *)
Fixpoint clear (this : Quadtree) : Quadtree :=
  match this with
  | mkQuadtree mo ml lv b objs nds =>
      let cleared := clear <$> nds in
      mkQuadtree mo ml lv b [] []
  end.

(** ** Sequences of calls *)

(** [insert] called on the root for each point of [points] in turn. *)
Fixpoint insert_all (fuel : nat) (points : list Point) (this : Quadtree)
    : res Quadtree :=
  match points with
  | [] => Ok this
  | p :: points' => this' ← insert fuel p this; insert_all fuel points' this'
  end.

(** The trees a caller can hold: a constructed root, after any calls of
    [insert] and [clear]. *)
Inductive reachable : Quadtree → Prop :=
| reach_new b mo ml lv :
    reachable (new_Quadtree b mo ml lv)
| reach_insert fuel p t t' :
    reachable t → insert fuel p t = Ok t' → reachable t'
| reach_clear t :
    reachable t → reachable (clear t).

(** ** Observations on trees *)

(** What a node is made with: its policy, level and bounds. *)
Definition header (t : Quadtree) : Z * Z * Z * Bounds :=
  (max_objects t, max_levels t, level t, bounds t).

(** Every point held in the subtree, node first, then subnodes by index. *)
Fixpoint all_points (t : Quadtree) : list Point :=
  match t with
  | mkQuadtree _ _ _ _ objs nds => objs ++ concat (all_points <$> nds)
  end.

(** The number of levels below a node. *)
Fixpoint depth (t : Quadtree) : nat :=
  match t with
  | mkQuadtree _ _ _ _ _ nds =>
      match nds with
      | [] => O
      | _ => S (foldr Nat.max O (depth <$> nds))
      end
  end.

(** The node reached from [t] through the subnode indices of [path]. *)
Fixpoint descend (t : Quadtree) (path : list nat) : option Quadtree :=
  match path with
  | [] => Some t
  | i :: path' => c ← nodes t !! i; descend c path'
  end.

(** [n] is [t] or a node below it. *)
Definition subnode (n t : Quadtree) : Prop := ∃ path, descend t path = Some n.

(** A point lies in a rectangle, borders included. *)
Definition inside (p : Point) (r : Rect) : Prop :=
  (left r <= lon p)%Q ∧ (lon p <= right r)%Q ∧
  (bottom r <= lat p)%Q ∧ (lat p <= top r)%Q.

(** A point lies in a rectangle and on none of its borders. *)
Definition strictly_inside (p : Point) (r : Rect) : Prop :=
  (left r < lon p)%Q ∧ (lon p < right r)%Q ∧
  (bottom r < lat p)%Q ∧ (lat p < top r)%Q.

(** Rectangle [b] lies in rectangle [r], borders included. *)
Definition within (b r : Rect) : Prop :=
  (left r <= left b)%Q ∧ (right b <= right r)%Q ∧
  (bottom r <= bottom b)%Q ∧ (top b <= top r)%Q.

(** The convention on bounds, [right >= left] and [top >= bottom]. *)
Definition proper (b : Rect) : Prop :=
  (left b <= right b)%Q ∧ (bottom b <= top b)%Q.

(** The subnode [split] makes at index [i]. *)
Definition quadrant (t : Quadtree) (i : nat) : option Quadtree :=
  nodes (split (set_nodes [] t)) !! i.

(** What the constructor establishes and no method changes. *)
Definition policy_ok (t : Quadtree) : Prop :=
  max_objects t ≠ 0 ∧ max_levels t ≠ 0 ∧
  width (bounds t) = (right (bounds t) - left (bounds t))%Q ∧
  height (bounds t) = (top (bounds t) - bottom (bounds t))%Q.

(** ** Clustered points *)

(** The points of [ps] get one and the same subnode index on [t], and so on
    down the subnode of that index, [n] levels deep. *)
Fixpoint clustered (n : nat) (t : Quadtree) (ps : list Point) : bool :=
  match n, ps with
  | S n', p :: _ =>
      let i := getIndexForPoint t p in
      forallb (λ q, getIndexForPoint t q =? i) ps &&
      match quadrant t (Z.to_nat i) with
      | Some c => clustered n' c ps
      | None => false
      end
  | _, _ => true
  end.

(** The tree an empty leaf [t] with [n] levels to go below it becomes when
    it has received the clustered points [ps]; [insert_all_chain] proves
    that this is what [insert_all] computes. *)
Fixpoint chain (n : nat) (t : Quadtree) (ps : list Point) : Quadtree :=
  match n, ps with
  | S n', p :: _ =>
      if Z.of_nat (length ps) >? max_objects t then
        let i := Z.to_nat (getIndexForPoint t p) in
        match quadrant t i with
        | Some c => set_nodes (<[i := chain n' c ps]> (nodes (split t))) t
        | None => t
        end
      else set_objects ps t
  | _, _ => set_objects ps t
  end.

(** A leaf as the constructor makes it. *)
Definition fresh (t : Quadtree) : Prop :=
  policy_ok t ∧ objects t = [] ∧ nodes t = [].

(** ** Concrete trees *)

(** A point with no payload. *)
Definition pt (x y : Q) : Point := mkPoint x y 0.

(** Bounds [{left:0, right:100, bottom:0, top:100}], [max_objects = 2],
    [max_levels = 4], and the points (10,10), (20,20), (30,30). *)
Definition scenario_root : Quadtree :=
  new_Quadtree (mkRect 0 0 100 100) (Some 2) (Some 4) None.

Definition scenario_points : list Point := [pt 10 10; pt 20 20; pt 30 30].

Definition tree_of (r : res Quadtree) (default : Quadtree) : Quadtree :=
  match r with Ok t => t | _ => default end.

Definition scenario_tree : Quadtree :=
  Eval vm_compute in
    tree_of (insert_all 5 scenario_points scenario_root) scenario_root.

(** The same bounds with [max_objects = 1], and a point outside them. *)
Definition outside_root : Quadtree :=
  new_Quadtree (mkRect 0 0 100 100) (Some 1) None None.

Definition outside_points : list Point := [pt 150 150; pt 10 10].

(** Bounds with [left > right], against the convention. *)
Definition inverted_root : Quadtree :=
  new_Quadtree (mkRect 100 0 0 100) (Some 1) None None.

Definition inverted_points : list Point := [pt 60 10; pt 65 20].

(** ** Well-formed nodes *)

(** [c], found at index [i] of [t], was made by [split] and holds only
    points that [getIndexForPoint] sends to [i]. *)
Definition child_ok (t : Quadtree) (i : nat) (c : Quadtree) : Prop :=
  (∃ s, quadrant t i = Some s ∧ header c = header s) ∧
  ∀ p, p ∈ all_points c → getIndexForPoint t p = Z.of_nat i.

Inductive wf : Quadtree → Prop :=
| wf_leaf t :
    policy_ok t → nodes t = [] → wf t
| wf_split t :
    policy_ok t →
    objects t = [] →
    level t < max_levels t →
    length (nodes t) = 4%nat →
    (∀ i c, nodes t !! i = Some c → child_ok t i c) →
    (∀ i c, nodes t !! i = Some c → wf c) →
    wf t.

(** A split node while [insert] is still moving its objects down. *)
Definition splitting (t : Quadtree) : Prop :=
  policy_ok t ∧ level t < max_levels t ∧ length (nodes t) = 4%nat ∧
  (∀ i c, nodes t !! i = Some c → child_ok t i c) ∧
  (∀ i c, nodes t !! i = Some c → wf c).

(** What a call of [insert] on a well-formed node must establish. *)
Definition insert_spec (ins : Point → Quadtree → res Quadtree) : Prop :=
  ∀ p t t', wf t → ins p t = Ok t' →
    wf t' ∧ header t' = header t ∧ all_points t' ≡ₚ all_points t ++ [p].


(** ** Further observations *)

(** The test that opens [getIndexForRect]: the node's bounds lie in
    [pRect]. *)
Definition bounds_in (this : Quadtree) (pRect : Rect) : bool :=
  Qgeb (left (bounds this)) (left pRect)
  && Qleb (right (bounds this)) (right pRect)
  && Qgeb (bottom (bounds this)) (bottom pRect)
  && Qleb (top (bounds this)) (top pRect).

(** What [retrieve] takes from a subnode: its result when the index was
    returned by [getIndexForRect], nothing otherwise. *)
Definition pick {A} (b : bool) (l : list A) : list A := if b then l else [].

(** No leaf above the depth cap holds more objects than the capacity. *)
Inductive capped : Quadtree → Prop :=
| capped_leaf t :
    nodes t = [] →
    (level t < max_levels t →
     Z.of_nat (length (objects t)) ≤ Z.max 0 (max_objects t)) →
    capped t
| capped_split t :
    nodes t ≠ [] →
    (∀ i c, nodes t !! i = Some c → capped c) →
    capped t.

(** What a call of [insert] must keep of [capped]. *)
Definition capped_spec (ins : Point → Quadtree → res Quadtree) : Prop :=
  ∀ p t t', wf t → capped t → ins p t = Ok t' → capped t'.
(** Every node holds a subsequence of [ps]: its objects are in the order of
    [ps]. *)
Inductive in_order (ps : list Point) : Quadtree → Prop :=
| in_order_node t :
    sublist (objects t) ps →
    (∀ i c, nodes t !! i = Some c → in_order ps c) →
    in_order ps t.

(** What a call of [insert] must keep of [in_order]. *)
Definition in_order_spec (ins : Point → Quadtree → res Quadtree) : Prop :=
  ∀ ps p t t', wf t → in_order ps t → ins p t = Ok t' →
    in_order (ps ++ [p]) t'.

(** ** The arithmetic of the code: IEEE doubles

    Above, coordinates are rationals, which is exact for every comparison
    the code makes but not for [right - left], [width / 2] and
    [left + width / 2]: the code computes these in double precision, where
    they round and overflow.  [Doubles] embeds the constructor, [split],
    [hasIntersection] and [getIndexForRect] once more, word for word, over
    the primitive binary64 floats, for the properties that depend on the
    value of a midpoint. *)

Module Doubles.

#[local] Open Scope float_scope.

Record Point := mkPoint { lon : float; lat : float; payload : nat }.

Record Rect := mkRect { left : float; bottom : float; right : float; top : float }.

Record Bounds := mkBounds { rect :> Rect; width : float; height : float }.

#[local] Unset Elimination Schemes.
Inductive Quadtree := mkQuadtree {
  max_objects : Z;
  max_levels : Z;
  level : Z;
  bounds : Bounds;
  objects : list Point;
  nodes : list Quadtree
}.
#[local] Set Elimination Schemes.

Definition set_objects (objs : list Point) (this : Quadtree) : Quadtree :=
  mkQuadtree (max_objects this) (max_levels this) (level this) (bounds this)
    objs (nodes this).

Definition set_nodes (nds : list Quadtree) (this : Quadtree) : Quadtree :=
  mkQuadtree (max_objects this) (max_levels this) (level this) (bounds this)
    (objects this) nds.

Definition new_Quadtree (bounds : Rect)
    (max_objects max_levels level : option Z) : Quadtree :=
  mkQuadtree
    (or_default max_objects 10)
    (or_default max_levels 4)
    (or_default level 0)
    (mkBounds bounds (right bounds - left bounds) (top bounds - bottom bounds))
    [] [].

Definition horMidpoint (this : Quadtree) : float :=
  left (bounds this) + width (bounds this) / 2.

Definition verMidpoint (this : Quadtree) : float :=
  bottom (bounds this) + height (bounds this) / 2.

Definition split (this : Quadtree) : Quadtree :=
  let nextLevel := (level this + 1)%Z in
  let horMidpoint := horMidpoint this in
  let verMidpoint := verMidpoint this in
  let b := bounds this in
  let child r :=
    new_Quadtree r (Some (max_objects this)) (Some (max_levels this))
      (Some nextLevel) in
  set_nodes
    ([ child (mkRect horMidpoint (bottom b) (right b) verMidpoint);
       child (mkRect (left b) (bottom b) horMidpoint verMidpoint);
       child (mkRect (left b) verMidpoint horMidpoint (top b));
       child (mkRect horMidpoint verMidpoint (right b) (top b)) ]
     ++ drop 4 (nodes this))
    this.

Definition node_at (this : Quadtree) (i : Z) : option Quadtree :=
  at_index (nodes this) i.

Definition hasIntersection (this : Quadtree) (pRect : Rect) : bool :=
  negb ((right pRect <? left (bounds this))
        || (right (bounds this) <? left pRect)
        || (top pRect <? bottom (bounds this))
        || (top (bounds this) <? bottom pRect)).

Fixpoint intersecting (this : Quadtree) (pRect : Rect) (i : Z) (n : nat)
    : res (list Z) :=
  match n with
  | O => Ok []
  | S n' =>
      match node_at this i with
      | None => TypeError
      | Some c =>
          rest ← intersecting this pRect (i + 1)%Z n';
          Ok (if hasIntersection c pRect then i :: rest else rest)
      end
  end.

(** [a >= b] is [b <= a] in IEEE 754, also on NaN, where both are false. *)
Definition getIndexForRect (this : Quadtree) (pRect : Rect) : res (list Z) :=
  if (left pRect <=? left (bounds this))
     && (right (bounds this) <=? right pRect)
     && (bottom pRect <=? bottom (bounds this))
     && (top (bounds this) <=? top pRect)
  then Ok ALL_NODES
  else intersecting this pRect 0%Z 4.

(** A point lies in a rectangle, borders included. *)
Definition inside (p : Point) (r : Rect) : Prop :=
  (left r <=? lon p) = true ∧ (lon p <=? right r) = true ∧
  (bottom r <=? lat p) = true ∧ (lat p <=? top r) = true.

(** A point lies in a rectangle and on none of its borders. *)
Definition strictly_inside (p : Point) (r : Rect) : Prop :=
  (left r <? lon p) = true ∧ (lon p <? right r) = true ∧
  (bottom r <? lat p) = true ∧ (lat p <? top r) = true.

(** Rectangle [b] lies in rectangle [r], borders included. *)
Definition within (b r : Rect) : Prop :=
  (left r <=? left b) = true ∧ (right b <=? right r) = true ∧
  (bottom r <=? bottom b) = true ∧ (top b <=? top r) = true.

(** The midpoints, as computed, lie between the borders. *)
Definition midpoints_between (this : Quadtree) : Prop :=
  (left (bounds this) <=? horMidpoint this) = true ∧
  (horMidpoint this <=? right (bounds this)) = true ∧
  (bottom (bounds this) <=? verMidpoint this) = true ∧
  (verMidpoint this <=? top (bounds this)) = true.

(** Bounds [[-2^1023, 2^1023] x [0, 1]]: [right - left] overflows. *)
Definition wide_root : Quadtree :=
  new_Quadtree (mkRect (-0x1p1023) 0 0x1p1023 1) None None None.

(** Bounds [[0, 100] x [0, 100]]. *)
Definition hundred_root : Quadtree :=
  new_Quadtree (mkRect 0 0 100 100) (Some 2%Z) (Some 4%Z) None.

End Doubles.

(** * Proofs *)

Section basics.

Lemma Qltb_lt x y : Qltb x y = true ↔ (x < y)%Q.
Proof.
  unfold Qltb. rewrite negb_true_iff, <- not_true_iff_false, Qle_bool_iff.
  split; [apply Qnot_le_lt | apply Qlt_not_le].
Qed.

Lemma Qltb_ge x y : Qltb x y = false ↔ (y <= x)%Q.
Proof. unfold Qltb. rewrite negb_false_iff. apply Qle_bool_iff. Qed.

Lemma all_points_eq t :
  all_points t = objects t ++ concat (all_points <$> nodes t).
Proof. by destruct t. Qed.

Lemma retrieve_eq pRect t :
  retrieve pRect t =
    if node0_defined t then
      indexes ← getIndexForRect t pRect;
      collect (retrieve pRect <$> nodes t) indexes (objects t)
    else Ok (objects t).
Proof. by destruct t. Qed.

Lemma clear_eq t : clear t = set_objects [] (set_nodes [] t).
Proof. by destruct t. Qed.

Lemma depth_eq t :
  depth t = match nodes t with
            | [] => O
            | _ => S (foldr Nat.max O (depth <$> nodes t))
            end.
Proof. by destruct t. Qed.

Lemma getIndexForPoint_range t p : 0 ≤ getIndexForPoint t p < 4.
Proof. unfold getIndexForPoint. repeat case_match; lia. Qed.

Lemma getIndexForPoint_defined t p : negb (getIndexForPoint t p =? -1) = true.
Proof. pose proof (getIndexForPoint_range t p). apply negb_true_iff. lia. Qed.

Lemma getIndexForPoint_header t t' p :
  header t = header t' → getIndexForPoint t p = getIndexForPoint t' p.
Proof. unfold header, getIndexForPoint. by intros [= _ _ _ ->]. Qed.

Lemma quadrant_header t t' i :
  header t = header t' → quadrant t i = quadrant t' i.
Proof.
  unfold header, quadrant, split, horMidpoint, verMidpoint. simpl.
  by intros [= -> -> -> ->].
Qed.

Lemma child_ok_header t t' i c :
  header t = header t' → child_ok t i c → child_ok t' i c.
Proof.
  intros Hh [Hq Hr]. split.
  - by rewrite <- (quadrant_header _ _ _ Hh).
  - intros p Hp. rewrite <- (getIndexForPoint_header _ _ _ Hh). by apply Hr.
Qed.

Lemma node_at_nat t (i : nat) : node_at t (Z.of_nat i) = nodes t !! i.
Proof.
  unfold node_at, at_index. destruct (Z.ltb_spec (Z.of_nat i) 0); [lia|].
  by rewrite Nat2Z.id.
Qed.

Lemma node0_defined_true t :
  node0_defined t = true ↔ nodes t ≠ [].
Proof.
  unfold node0_defined, node_at, at_index. simpl. destruct (nodes t); naive_solver.
Qed.

Lemma node0_defined_false t :
  node0_defined t = false ↔ nodes t = [].
Proof.
  unfold node0_defined, node_at, at_index. simpl. destruct (nodes t); naive_solver.
Qed.

End basics.

(** ** [insert] keeps nodes well-formed and loses no point *)

Section constructed_nodes.

Lemma or_default_nonzero v d : d ≠ 0 → or_default v d ≠ 0.
Proof.
  intros Hd. destruct v as [x|]; simpl; [|done].
  destruct (Z.eqb_spec x 0); done.
Qed.

Lemma or_default_some x d : x ≠ 0 → or_default (Some x) d = x.
Proof. intros Hx. simpl. destruct (Z.eqb_spec x 0); done. Qed.

Lemma or_default_level x : or_default (Some x) 0 = x.
Proof. simpl. destruct (Z.eqb_spec x 0); congruence. Qed.

Lemma new_Quadtree_policy_ok b mo ml lv : policy_ok (new_Quadtree b mo ml lv).
Proof.
  repeat split; simpl; try done; by apply or_default_nonzero.
Qed.

Lemma new_Quadtree_wf b mo ml lv : wf (new_Quadtree b mo ml lv).
Proof. apply wf_leaf; [apply new_Quadtree_policy_ok | done]. Qed.

Lemma wf_policy_ok t : wf t → policy_ok t.
Proof. by destruct 1. Qed.

Lemma wf_splitting t : wf t → nodes t ≠ [] → splitting t ∧ objects t = [].
Proof.
  intros Hwf Hn. destruct Hwf; [congruence|]. by unfold splitting.
Qed.

Lemma splitting_wf t : splitting t → objects t = [] → wf t.
Proof. intros (?&?&?&?&?) ?. by apply wf_split. Qed.

Lemma splitting_header t t' :
  header t = header t' → nodes t = nodes t' → splitting t → splitting t'.
Proof.
  intros Hh Hn (Hp & Hl & Hlen & Hch & Hwf). rewrite Hn in *.
  injection Hh as H1 H2 H3 H4.
  assert (Hpol : policy_ok t').
  { unfold policy_ok in *. by rewrite <- H1, <- H2, <- H4. }
  assert (Hl' : level t' < max_levels t') by lia.
  split; [done|]. split; [done|]. split; [done|]. split; [|done].
  intros i c Hc. eapply (child_ok_header t), Hch; [|done].
  unfold header. congruence.
Qed.

Lemma quadrant_lt t i : (i < 4)%nat → is_Some (quadrant t i).
Proof.
  intros Hi. unfold quadrant. simpl.
  do 4 (destruct i as [|i]; [by eexists|]). lia.
Qed.

Lemma quadrant_policy t i s :
  policy_ok t → quadrant t i = Some s →
  policy_ok s ∧ objects s = [] ∧ nodes s = [] ∧
  max_objects s = max_objects t ∧ max_levels s = max_levels t ∧
  level s = level t + 1.
Proof.
  intros (Hmo & Hml & _) Hs. unfold quadrant in Hs. simpl in Hs.
  do 4 (destruct i as [|i];
    [ injection Hs as <-;
      split; [apply new_Quadtree_policy_ok|];
      cbn [objects nodes max_objects max_levels level new_Quadtree];
      by rewrite !or_default_some, or_default_level by done |]).
  done.
Qed.

Lemma split_leaf t :
  policy_ok t → nodes t = [] → level t < max_levels t →
  splitting (split t) ∧ header (split t) = header t ∧
  objects (split t) = objects t ∧ all_points (split t) = objects t.
Proof.
  intros Hp Hn Hl.
  assert (Hq : ∀ i, nodes (split t) !! i = quadrant t i).
  { intros i. unfold quadrant. simpl. by rewrite Hn. }
  assert (Hh : header (split t) = header t) by done.
  split; [|split; [done|split; [done|]]].
  - split; [done|]. split; [done|]. split; [by simpl; rewrite Hn|]. split.
    + intros i c Hc. rewrite Hq in Hc.
      apply (child_ok_header t); [done|]. split; [by exists c|].
      destruct (quadrant_policy _ _ _ Hp Hc) as (_ & Ho & Hnn & _).
      rewrite all_points_eq, Ho, Hnn. simpl. by intros p ?%elem_of_nil.
    + intros i c Hc. rewrite Hq in Hc.
      destruct (quadrant_policy _ _ _ Hp Hc) as (? & _ & ? & _).
      by apply wf_leaf.
  - rewrite all_points_eq. simpl. rewrite Hn. simpl. by rewrite app_nil_r.
Qed.

Lemma concat_insert_perm {A B} (f : A → list B) l i c c' p :
  l !! i = Some c → f c' ≡ₚ f c ++ [p] →
  concat (f <$> <[i:=c']> l) ≡ₚ concat (f <$> l) ++ [p].
Proof.
  revert i. induction l as [|x l IH]; intros [|i] Hl Hf; simplify_eq/=.
  - rewrite Hf. by rewrite <- !(assoc (++)), (comm (++) [p]).
  - by rewrite (IH i), (assoc (++)).
Qed.

End constructed_nodes.

(** The calls made by [insert], for any callee [ins] that meets
    [insert_spec]. *)
Section insert_calls.

Context (ins : Point → Quadtree → res Quadtree) (Hins : insert_spec ins).

Lemma insert_at_spec p t t' :
  splitting t →
  insert_at ins (getIndexForPoint t p) p t = Ok t' →
  splitting t' ∧ header t' = header t ∧ objects t' = objects t ∧
  all_points t' ≡ₚ all_points t ++ [p].
Proof.
  intros (Hp & Hl & Hlen & Hch & Hwf) Hat. unfold insert_at in Hat.
  pose proof (getIndexForPoint_range t p) as Hr.
  set (i := Z.to_nat (getIndexForPoint t p)) in *.
  assert (Hi : getIndexForPoint t p = Z.of_nat i) by lia.
  rewrite Hi, node_at_nat in Hat.
  destruct (nodes t !! i) as [c|] eqn:Hc; [|done].
  destruct (ins p c) as [c'| |] eqn:Hc'; simplify_eq/=.
  destruct (Hins _ _ _ (Hwf _ _ Hc) Hc') as (Hwf' & Hh' & Hperm).
  set (t' := set_nodes _ t).
  assert (Hh : header t' = header t) by done.
  split; [|split; [done|split; [done|]]].
  - split; [done|]. split; [done|]. split; [by simpl; rewrite length_insert|].
    split; intros j d Hd; simpl in Hd.
    + apply (child_ok_header t); [done|].
      destruct (decide (i = j)) as [<-|Hne].
      * rewrite list_lookup_insert_eq in Hd by (by eapply lookup_lt_Some).
        injection Hd as <-. destruct (Hch _ _ Hc) as [[s [Hs Hhs]] Hroute].
        split; [exists s; split; [done | congruence]|].
        intros q Hq. rewrite Hperm in Hq.
        apply elem_of_app in Hq as [Hq|Hq%list_elem_of_singleton]; [by apply Hroute | by subst q].
      * rewrite list_lookup_insert_ne in Hd by done. by apply Hch.
    + destruct (decide (i = j)) as [<-|Hne].
      * rewrite list_lookup_insert_eq in Hd by (by eapply lookup_lt_Some).
        by injection Hd as <-.
      * rewrite list_lookup_insert_ne in Hd by done. by eapply Hwf.
  - rewrite !all_points_eq. simpl.
    rewrite (concat_insert_perm all_points _ _ _ _ _ Hc Hperm).
    by rewrite (assoc (++)).
Qed.

Lemma redistribute_spec : ∀ rest t t',
  splitting t → objects t = rest →
  redistribute ins [] rest t = Ok t' →
  splitting t' ∧ objects t' = [] ∧ header t' = header t ∧
  all_points t' ≡ₚ all_points t.
Proof.
  induction rest as [|o rest IH]; intros t t' Hs Ho Hr; simpl in Hr.
  - by injection Hr as <-.
  - rewrite getIndexForPoint_defined in Hr. simpl in Hr.
    set (t1 := set_objects rest t) in *.
    assert (Hs1 : splitting t1).
    { by apply (splitting_header t). }
    rewrite (getIndexForPoint_header t t1) in Hr by done.
    destruct (insert_at ins _ o t1) as [t2| |] eqn:Hat; simplify_eq/=.
    destruct (insert_at_spec _ _ _ Hs1 Hat) as (Hs2 & Hh2 & Ho2 & Hp2).
    destruct (IH _ _ Hs2 Ho2 Hr) as (Hs' & Ho' & Hh' & Hp').
    split; [done|]. split; [done|]. split; [by rewrite Hh', Hh2|].
    rewrite Hp', Hp2, !all_points_eq, Ho. simpl.
    symmetry. apply Permutation_cons_append.
Qed.

End insert_calls.

Section insert_invariant.

Lemma insert_wf fuel : insert_spec (insert fuel).
Proof.
  induction fuel as [|fuel IH]; intros p t t' Hwf Hins; [done|].
  simpl in Hins. rewrite getIndexForPoint_defined, andb_true_r in Hins.
  destruct (node0_defined t) eqn:Hn.
  - apply node0_defined_true in Hn.
    destruct (wf_splitting _ Hwf Hn) as [Hs Ho].
    destruct (insert_at_spec _ IH _ _ _ Hs Hins) as (Hs' & Hh & Ho' & Hp).
    split; [|done]. apply splitting_wf; congruence.
  - apply node0_defined_false in Hn.
    pose proof (wf_policy_ok _ Hwf) as Hpol.
    set (t1 := set_objects (objects t ++ [p]) t) in *.
    assert (Hp1 : all_points t1 = all_points t ++ [p]).
    { rewrite !all_points_eq. subst t1. simpl. rewrite Hn. simpl.
      by rewrite !app_nil_r. }
    assert (Hn1 : node0_defined t1 = false) by by apply node0_defined_false.
    rewrite Hn1 in Hins. simpl in Hins. rewrite andb_true_r in Hins.
    destruct (_ && _) eqn:Hcond in Hins.
    + apply andb_prop in Hcond as [_ Hlv%Z.ltb_lt].
      destruct (split_leaf t1 Hpol Hn Hlv) as (Hs & Hh & Ho & Hp).
      destruct (redistribute_spec _ IH _ _ _ Hs Ho Hins)
        as (Hs' & Ho' & Hh' & Hp').
      split; [by apply splitting_wf|]. split; [by rewrite Hh'|].
      rewrite Hp', Hp, <- Hp1, all_points_eq. simpl. rewrite Hn. simpl.
      by rewrite app_nil_r.
    + injection Hins as <-. split; [by apply wf_leaf|]. by rewrite Hp1.
Qed.

End insert_invariant.

(** ** [insert] returns: the depth of its nested calls is bounded *)

Section termination.





End termination.

(** ** The fuel bounds the depth of calls and nothing else *)

Section fuel_independent.

Context (ins ins' : Point → Quadtree → res Quadtree).
Context (Hmono : ∀ p t t', ins p t = Ok t' → ins' p t = Ok t').



End fuel_independent.



(** ** Reachable trees are well-formed *)

Section reachability.

Lemma clear_wf t : wf t → wf (clear t).
Proof.
  intros Hwf. rewrite clear_eq. apply wf_leaf; [|done].
  by apply wf_policy_ok in Hwf.
Qed.

Lemma reachable_wf t : reachable t → wf t.
Proof.
  induction 1 as [b mo ml lv|fuel p t t' _ IH Hins|t _ IH].
  - apply new_Quadtree_wf.
  - by destruct (insert_wf fuel p t t' IH Hins).
  - by apply clear_wf.
Qed.

Lemma insert_all_wf fuel points : ∀ t t',
  wf t → insert_all fuel points t = Ok t' →
  wf t' ∧ header t' = header t ∧ all_points t' ≡ₚ all_points t ++ points.
Proof.
  induction points as [|p points IH]; intros t t' Hwf Hall; simpl in Hall.
  - injection Hall as <-. by rewrite app_nil_r.
  - destruct (insert fuel p t) as [t1| |] eqn:Hins; simplify_eq/=.
    destruct (insert_wf fuel p t t1 Hwf Hins) as (Hwf1 & Hh1 & Hp1).
    destruct (IH _ _ Hwf1 Hall) as (Hwf' & Hh' & Hp').
    split; [done|]. split; [congruence|].
    by rewrite Hp', Hp1, <- (assoc (++)).
Qed.

Lemma insert_all_reachable fuel points : ∀ t t',
  reachable t → insert_all fuel points t = Ok t' → reachable t'.
Proof.
  induction points as [|p points IH]; intros t t' Hr Hall; simpl in Hall.
  - by injection Hall as <-.
  - destruct (insert fuel p t) as [t1| |] eqn:Hins; simplify_eq/=.
    eapply IH; [|done]. by eapply reach_insert.
Qed.

Lemma wf_descend t : wf t → ∀ path n, descend t path = Some n → wf n.
Proof.
  intros Hwf path. revert t Hwf.
  induction path as [|i path IH]; intros t Hwf n Hd; simpl in Hd.
  - by injection Hd as <-.
  - destruct (nodes t !! i) as [c|] eqn:Hc; [|done]. simpl in Hd.
    destruct Hwf as [t _ Hn|t _ _ _ _ _ Hsub]; [by rewrite Hn in Hc|].
    by eapply IH, Hd; eapply Hsub.
Qed.

Lemma wf_subnode n t : wf t → subnode n t → wf n.
Proof. intros Hwf [path Hd]. by eapply wf_descend. Qed.

End reachability.

(** ** [retrieve] on well-formed nodes *)

Section retrieve_steps.

Lemma at_index_nat {A} (a : list A) (i : nat) : at_index a (Z.of_nat i) = a !! i.
Proof.
  unfold at_index. destruct (Z.ltb_spec (Z.of_nat i) 0); [lia|].
  by rewrite Nat2Z.id.
Qed.

Lemma at_index_Some {A} (a : list A) i x :
  at_index a i = Some x → ∃ n : nat, i = Z.of_nat n ∧ a !! n = Some x.
Proof.
  unfold at_index. destruct (Z.ltb_spec i 0); [done|].
  exists (Z.to_nat i). split; [lia | done].
Qed.

Lemma intersecting_spec t pRect n : ∀ i : nat,
  (i + n ≤ length (nodes t))%nat →
  ∃ idx, intersecting t pRect (Z.of_nat i) n = Ok idx ∧
    (∀ j, j ∈ idx → ∃ k : nat, j = Z.of_nat k ∧ (k < length (nodes t))%nat) ∧
    ∀ (k : nat) c, (i ≤ k < i + n)%nat → nodes t !! k = Some c →
      hasIntersection c pRect = true → Z.of_nat k ∈ idx.
Proof.
  induction n as [|n IH]; intros i Hlen; simpl.
  - eexists. split; [done|]. split; [by intros j ?%elem_of_nil | lia].
  - rewrite node_at_nat.
    destruct (lookup_lt_is_Some_2 (nodes t) i) as [c Hc]; [lia|].
    rewrite Hc. replace (Z.of_nat i + 1) with (Z.of_nat (S i)) by lia.
    destruct (IH (S i)) as (rest & -> & Hin & Hall); [lia|]. simpl.
    eexists. split; [done|]. split.
    + intros j Hj. destruct (hasIntersection c pRect); [|by apply Hin].
      apply elem_of_cons in Hj as [->|Hj]; [|by apply Hin].
      exists i. split; [done | lia].
    + intros k d Hk Hd Hhit. destruct (decide (k = i)) as [->|Hne].
      * assert (d = c) as -> by congruence. rewrite Hhit. by left.
      * assert (Z.of_nat k ∈ rest) by (eapply Hall; [lia|done..]).
        destruct (hasIntersection c pRect); [by right | done].
Qed.

Lemma getIndexForRect_spec t pRect :
  length (nodes t) = 4%nat →
  ∃ idx, getIndexForRect t pRect = Ok idx ∧
    (∀ j, j ∈ idx → ∃ k : nat, j = Z.of_nat k ∧ (k < 4)%nat) ∧
    ∀ (k : nat) c, nodes t !! k = Some c →
      hasIntersection c pRect = true → Z.of_nat k ∈ idx.
Proof.
  intros Hlen. unfold getIndexForRect. destruct (_ && _).
  - eexists. split; [done|]. split.
    + intros j Hj. unfold ALL_NODES in Hj.
      repeat (apply elem_of_cons in Hj as [->|Hj]);
        [by exists 0%nat; lia | by exists 1%nat; lia
        | by exists 2%nat; lia | by exists 3%nat; lia
        | by apply elem_of_nil in Hj].
    + intros k c Hc _. apply lookup_lt_Some in Hc. rewrite Hlen in Hc.
      unfold ALL_NODES. do 4 (destruct k as [|k]; [repeat constructor|]). lia.
  - destruct (intersecting_spec t pRect 4 0) as (idx & Hidx & Hin & Hall);
      [simpl; lia|].
    exists idx. split; [done|]. split.
    + intros j Hj. destruct (Hin j Hj) as (k & -> & Hk). exists k.
      split; [done | lia].
    + intros k c Hc Hhit. apply (Hall k c); [|done..].
      apply lookup_lt_Some in Hc. lia.
Qed.

Lemma collect_spec (sub : list (res (list Point))) : ∀ indexes acc,
  (∀ j, j ∈ indexes → ∃ l, at_index sub j = Some (Ok l)) →
  ∃ out, collect sub indexes acc = Ok out ∧
    ∀ p, p ∈ out ↔
      p ∈ acc ∨ ∃ j l, j ∈ indexes ∧ at_index sub j = Some (Ok l) ∧ p ∈ l.
Proof.
  induction indexes as [|i indexes IH]; intros acc Hsub; simpl.
  - eexists. split; [done|]. intros p. split; [by left|].
    intros [?|(j & l & []%elem_of_nil & _)]. done.
  - destruct (Hsub i) as [l Hl]; [by left|]. rewrite Hl. simpl.
    destruct (IH (acc ++ l)) as (out & -> & Hout).
    { intros j Hj. apply Hsub. by right. }
    exists out. split; [done|]. intros p. rewrite Hout, elem_of_app.
    split.
    + intros [[?|?]|(j & l' & Hj & Hl' & Hp)]; [by left| |].
      * right. exists i, l. by repeat split; [left|..].
      * right. exists j, l'. by repeat split; [right|..].
    + intros [?|(j & l' & Hj & Hl' & Hp)]; [by left; left|].
      apply elem_of_cons in Hj as [->|Hj].
      * assert (l' = l) as -> by congruence. by left; right.
      * right. by exists j, l'.
Qed.

Lemma Qgtb_gt x y : Qgtb x y = true ↔ (y < x)%Q.
Proof. apply Qltb_lt. Qed.

Lemma Qgtb_le x y : Qgtb x y = false ↔ (x <= y)%Q.
Proof. apply Qltb_ge. Qed.

Lemma quadrant_inside t i s p :
  quadrant t i = Some s → getIndexForPoint t p = Z.of_nat i →
  inside p (bounds t) → inside p (bounds s).
Proof.
  unfold quadrant, getIndexForPoint, inside. simpl.
  unfold horMidpoint, verMidpoint.
  intros Hs Hi (Hl & Hr & Hb & Ht).
  destruct (Qgtb (lon p) _) eqn:Hlon, (Qgtb (lat p) _) eqn:Hlat;
    revert Hlon Hlat; rewrite ?Qgtb_gt, ?Qgtb_le; intros Hlon Hlat.
  - assert (i = 3%nat) as -> by lia. injection Hs as <-. simpl.
    auto using Qlt_le_weak.
  - assert (i = 0%nat) as -> by lia. injection Hs as <-. simpl.
    auto using Qlt_le_weak.
  - assert (i = 2%nat) as -> by lia. injection Hs as <-. simpl.
    auto using Qlt_le_weak.
  - assert (i = 1%nat) as -> by lia. injection Hs as <-. simpl.
    auto using Qlt_le_weak.
Qed.

Lemma inside_hasIntersection c pRect p :
  inside p (bounds c) → inside p pRect → hasIntersection c pRect = true.
Proof.
  intros (Hl & Hr & Hb & Ht) (Hl' & Hr' & Hb' & Ht'). unfold hasIntersection.
  rewrite negb_true_iff, !orb_false_iff, !Qltb_ge.
  repeat split; eapply Qle_trans; eauto.
Qed.

End retrieve_steps.

Section retrieve_results.

Lemma elem_of_concat_fmap {A B} (f : A → list B) (l : list A) x :
  x ∈ concat (f <$> l) ↔ ∃ k c, l !! k = Some c ∧ x ∈ f c.
Proof.
  induction l as [|a l IH]; simpl.
  - split; [by intros ?%elem_of_nil | by intros (k & c & ? & _)].
  - rewrite elem_of_app, IH. split.
    + intros [?|(k & c & ? & ?)]; [by exists 0%nat, a | by exists (S k), c].
    + intros ([|k] & c & Hk & ?); simplify_eq/=; [by left | right; eauto].
Qed.

Lemma length_4_nonempty {A} (l : list A) : length l = 4%nat → l ≠ [].
Proof. by destruct l. Qed.

(** [retrieve] returns, gives only points of the subtree, and gives every
    point of the subtree that lies in the node's bounds and in [pRect]. *)
Lemma retrieve_wf pRect t :
  wf t →
  ∃ l, retrieve pRect t = Ok l ∧
    (∀ p, p ∈ l → p ∈ all_points t) ∧
    (∀ p, p ∈ all_points t → inside p (bounds t) → inside p pRect → p ∈ l).
Proof.
  induction 1 as [t Hp Hn|t Hp Ho Hl Hlen Hch Hwf IH];
    rewrite retrieve_eq, all_points_eq.
  - rewrite (proj2 (node0_defined_false t) Hn), Hn. simpl.
    exists (objects t). rewrite app_nil_r. by repeat split.
  - rewrite (proj2 (node0_defined_true t) (length_4_nonempty _ Hlen)).
    destruct (getIndexForRect_spec t pRect Hlen) as (idx & -> & Hidx & Hhit).
    simpl.
    destruct (collect_spec (retrieve pRect <$> nodes t) idx (objects t))
      as (out & -> & Hout).
    { intros j Hj. destruct (Hidx j Hj) as (k & -> & Hk).
      destruct (lookup_lt_is_Some_2 (nodes t) k) as [c Hc]; [lia|].
      destruct (IH k c Hc) as (l & Hl' & _). exists l.
      by rewrite at_index_nat, list_lookup_fmap, Hc, <- Hl'. }
    exists out. split; [done|]. split.
    + intros p [Hp'|(j & l & Hj & Hjl & Hpl)]%Hout; apply elem_of_app;
        [by left | right].
      apply at_index_Some in Hjl as (k & -> & Hk).
      rewrite list_lookup_fmap in Hk.
      destruct (nodes t !! k) as [c|] eqn:Hc; simplify_eq/=.
      destruct (IH k c Hc) as (l' & Hl' & Hsub & _).
      apply elem_of_concat_fmap. exists k, c. split; [done|].
      apply Hsub. congruence.
    + intros p [Hp'|Hp']%elem_of_app Hin HinR; apply Hout; [by left | right].
      apply elem_of_concat_fmap in Hp' as (k & c & Hc & Hpc).
      destruct (Hch k c Hc) as [(s & Hs & Hh) Hroute].
      assert (Hinc : inside p (bounds c)).
      { injection Hh as _ _ _ ->.
        by apply (quadrant_inside t k s p Hs (Hroute p Hpc)). }
      destruct (IH k c Hc) as (l & Hl' & _ & Hfind).
      exists (Z.of_nat k), l. split; [|split].
      * apply (Hhit k c Hc). by apply (inside_hasIntersection c pRect p).
      * by rewrite at_index_nat, list_lookup_fmap, Hc, <- Hl'.
      * by apply Hfind.
Qed.

Lemma half_eq x : (x / 2 == x * (1 # 2))%Q.
Proof. reflexivity. Qed.

Lemma midpoint_between l r :
  (l <= r)%Q → (l <= l + (r - l) / 2)%Q ∧ (l + (r - l) / 2 <= r)%Q.
Proof. intros. rewrite half_eq. split; lra. Qed.

Lemma quadrant_proper t i s :
  policy_ok t → quadrant t i = Some s → proper (bounds t) →
  proper (bounds s) ∧ within (bounds s) (bounds t).
Proof.
  intros (_ & _ & Hw & Hh) Hs [Hlr Hbt].
  unfold quadrant, split, horMidpoint, verMidpoint in Hs. simpl in Hs.
  rewrite Hw, Hh in Hs.
  destruct (midpoint_between _ _ Hlr), (midpoint_between _ _ Hbt).
  do 4 (destruct i as [|i];
    [injection Hs as <-; unfold proper, within; simpl; repeat split;
     done || apply Qle_refl|]).
  done.
Qed.

Lemma within_trans a b c : within a b → within b c → within a c.
Proof.
  intros (?&?&?&?) (?&?&?&?). repeat split; eapply Qle_trans; eauto.
Qed.

Lemma within_fast_path t pRect :
  within (bounds t) pRect →
  Qgeb (left (bounds t)) (left pRect)
  && Qleb (right (bounds t)) (right pRect)
  && Qgeb (bottom (bounds t)) (bottom pRect)
  && Qleb (top (bounds t)) (top pRect) = true.
Proof.
  intros (?&?&?&?). unfold Qgeb, Qleb.
  by rewrite !andb_true_iff, !Qle_bool_iff.
Qed.

(** A query rectangle holding the bounds of a node with proper bounds gets
    every point of the subtree, node first, then subnodes by index. *)
Lemma retrieve_all pRect t :
  wf t → proper (bounds t) → within (bounds t) pRect →
  retrieve pRect t = Ok (all_points t).
Proof.
  induction 1 as [t Hp Hn|t Hp Ho Hl Hlen Hch Hwf IH]; intros Hpr Hin;
    rewrite retrieve_eq, all_points_eq.
  - rewrite (proj2 (node0_defined_false t) Hn), Hn. simpl.
    by rewrite app_nil_r.
  - rewrite (proj2 (node0_defined_true t) (length_4_nonempty _ Hlen)).
    unfold getIndexForRect. rewrite (within_fast_path t pRect Hin). simpl.
    assert (Hsub : ∀ k c, nodes t !! k = Some c →
                          retrieve pRect c = Ok (all_points c)).
    { intros k c Hc. destruct (Hch k c Hc) as [(s & Hs & Hh) _].
      destruct (quadrant_proper t k s Hp Hs Hpr) as [Hprs Hws].
      injection Hh as _ _ _ Hb. rewrite <- Hb in Hprs, Hws.
      apply (IH k c Hc Hprs). by eapply within_trans. }
    destruct (nodes t) as [|c0 [|c1 [|c2 [|c3 [|]]]]]; try done.
    simpl. unfold at_index. simpl.
    rewrite (Hsub 0%nat c0), (Hsub 1%nat c1), (Hsub 2%nat c2),
      (Hsub 3%nat c3) by done.
    simpl. by rewrite app_nil_r, <- !(assoc (++)).
Qed.

End retrieve_results.

(** ** Clustered points run down a single branch *)

Section single_branch.

Lemma clustered_S n t h xs :
  clustered (S n) t (h :: xs) = true ↔
  (∀ q, q ∈ h :: xs → getIndexForPoint t q = getIndexForPoint t h) ∧
  ∃ c, quadrant t (Z.to_nat (getIndexForPoint t h)) = Some c ∧
       clustered n c (h :: xs) = true.
Proof.
  cbn [clustered]. rewrite andb_true_iff, forallb_forall. split.
  - intros [Hall Hc]. split.
    + intros q Hq. apply list_elem_of_In, Hall in Hq. lia.
    + destruct (quadrant t _) as [c|]; [by exists c | done].
  - intros [Hall (c & -> & Hc)]. split; [|done].
    intros q Hq. apply list_elem_of_In, Hall in Hq. lia.
Qed.

Lemma clustered_nil n t : clustered n t [] = true.
Proof. by destruct n. Qed.

Lemma clustered_prefix n : ∀ t l1 l2,
  clustered n t (l1 ++ l2) = true → clustered n t l1 = true.
Proof.
  induction n as [|n IH]; intros t l1 l2 Hc; [done|].
  destruct l1 as [|h l1]; [done|].
  rewrite <- app_comm_cons in Hc.
  apply clustered_S in Hc as [Hall (c & Hq & Hc)]. apply clustered_S. split.
  - intros q Hq'. apply Hall. rewrite app_comm_cons.
    apply elem_of_app. by left.
  - exists c. split; [done|]. by apply (IH c (h :: l1) l2).
Qed.

Lemma set_objects_fresh t : objects t = [] → set_objects [] t = t.
Proof. destruct t. simpl. by intros ->. Qed.

Lemma chain_nil n t : objects t = [] → chain n t [] = t.
Proof. intros Ho. destruct n; simpl; by apply set_objects_fresh. Qed.

Lemma quadrant_fresh t i c :
  policy_ok t → quadrant t i = Some c →
  fresh c ∧ max_objects c = max_objects t ∧
  Z.to_nat (max_levels c - level c)
  = Nat.pred (Z.to_nat (max_levels t - level t)).
Proof.
  intros Hp Hq.
  destruct (quadrant_policy t i c Hp Hq) as (Hpc & Ho & Hn & Hmo & Hml & Hlv).
  split; [done|]. split; [done|]. lia.
Qed.

Lemma insert_leaf fuel p t :
  nodes t = [] →
  insert (S fuel) p t =
    let t1 := set_objects (objects t ++ [p]) t in
    if (Z.of_nat (length (objects t1)) >? max_objects t)
       && (level t <? max_levels t)
    then redistribute (insert fuel) [] (objects t1) (split t1)
    else Ok t1.
Proof.
  intros Hn. cbn [insert]. rewrite getIndexForPoint_defined, andb_true_r.
  rewrite (proj2 (node0_defined_false t) Hn).
  assert (node0_defined (set_objects (objects t ++ [p]) t) = false) as ->
    by by apply node0_defined_false.
  by rewrite andb_true_r.
Qed.

Lemma insert_split fuel p t :
  nodes t ≠ [] →
  insert (S fuel) p t = insert_at (insert fuel) (getIndexForPoint t p) p t.
Proof.
  intros Hn. cbn [insert]. rewrite getIndexForPoint_defined, andb_true_r.
  by rewrite (proj2 (node0_defined_true t) Hn).
Qed.

Lemma chain_leaf n t ps :
  ps = [] ∨ Z.of_nat (length ps) ≤ max_objects t ∨ n = O →
  chain n t ps = set_objects ps t.
Proof.
  intros Hps. destruct n as [|n]; [done|]. destruct ps as [|h xs]; [done|].
  cbn [chain]. destruct (Z.gtb_spec (Z.of_nat (length (h :: xs))) (max_objects t));
    [|done].
  destruct Hps as [?|[?|?]]; [done | lia | done].
Qed.

Lemma chain_split n t h xs c :
  Z.of_nat (length (h :: xs)) > max_objects t →
  quadrant t (Z.to_nat (getIndexForPoint t h)) = Some c →
  chain (S n) t (h :: xs)
  = set_nodes (<[Z.to_nat (getIndexForPoint t h) := chain n c (h :: xs)]>
                 (nodes (split t))) t.
Proof.
  intros Hlen Hq. cbn [chain]. rewrite Hq.
  by destruct (Z.gtb_spec (Z.of_nat (length (h :: xs))) (max_objects t)); [|lia].
Qed.

(** The [while] loop of [insert] on clustered points: they all go, one
    after the other, into the subnode at index [i]. *)
Lemma redistribute_chain n fuel t i c l :
  (∀ ps p, clustered n c (ps ++ [p]) = true →
           insert fuel p (chain n c ps) = Ok (chain n c (ps ++ [p]))) →
  (i < length l)%nat →
  ∀ rest done,
    (∀ o, o ∈ rest → getIndexForPoint t o = Z.of_nat i) →
    clustered n c (done ++ rest) = true →
    redistribute (insert fuel) [] rest
      (set_objects rest (set_nodes (<[i := chain n c done]> l) t))
    = Ok (set_objects [] (set_nodes (<[i := chain n c (done ++ rest)]> l) t)).
Proof.
  intros Hstep Hi. induction rest as [|o rest IH]; intros done Hidx Hcl.
  - by rewrite app_nil_r.
  - cbn [redistribute]. rewrite getIndexForPoint_defined. cbn [app].
    assert (Ho : getIndexForPoint
                   (set_objects (o :: rest)
                      (set_nodes (<[i := chain n c done]> l) t)) o
                 = Z.of_nat i) by (apply Hidx; by left).
    rewrite Ho. unfold insert_at. rewrite node_at_nat. cbn [nodes set_objects set_nodes].
    rewrite list_lookup_insert_eq by done.
    rewrite Hstep by (by apply (clustered_prefix n c (done ++ [o]) rest);
                      rewrite <- (assoc (++))).
    cbn [mbind res_bind]. rewrite Nat2Z.id, list_insert_insert_eq.
    rewrite (cons_middle o done rest), (assoc (++)).
    apply (IH (done ++ [o])).
    + intros q Hq. apply Hidx. by right.
    + by rewrite <- (assoc (++)).
Qed.

Lemma split_fresh_nodes t i :
  nodes t = [] → nodes (split t) !! i = quadrant t i.
Proof. intros Hn. unfold quadrant. simpl. by rewrite Hn. Qed.

(** One more clustered point: [insert] takes the tree that [ps] made to the
    tree that [ps ++ [p]] makes. *)
Lemma chain_step n : ∀ t ps p fuel,
  fresh t → Z.to_nat (max_levels t - level t) = n →
  clustered n t (ps ++ [p]) = true → (n < fuel)%nat →
  insert fuel p (chain n t ps) = Ok (chain n t (ps ++ [p])).
Proof.
  induction n as [|n IH]; intros t ps p fuel (Hpol & Ho & Hn) Hlv Hcl Hfuel;
    (destruct fuel as [|fuel]; [lia|]).
  - rewrite !chain_leaf by auto. rewrite insert_leaf by done.
    cbn [objects set_objects max_objects level max_levels].
    destruct (Z.ltb_spec (level t) (max_levels t)); [lia|].
    by rewrite andb_false_r.
  - destruct (ps ++ [p]) as [|h xs] eqn:Hall; [by destruct ps|].
    apply clustered_S in Hcl as [Hidx (c & Hq & Hcl)].
    destruct (quadrant_fresh t _ c Hpol Hq) as (Hfc & Hmo & Hlvc).
    rewrite Hlv in Hlvc. cbn [Nat.pred] in Hlvc.
    set (i := Z.to_nat (getIndexForPoint t h)) in *.
    assert (Hi : ∀ q, q ∈ h :: xs → getIndexForPoint t q = Z.of_nat i).
    { intros q Hq'. rewrite (Hidx q Hq'). subst i.
      pose proof (getIndexForPoint_range t h). lia. }
    assert (Hilen : (i < length (nodes (split t)))%nat).
    { apply lookup_lt_is_Some. rewrite split_fresh_nodes, Hq by done.
      by eexists. }
    assert (Hstep : ∀ qs q, clustered n c (qs ++ [q]) = true →
              insert fuel q (chain n c qs) = Ok (chain n c (qs ++ [q]))).
    { intros qs q Hqs. apply IH; [done | done | done | lia]. }
    destruct (decide (ps = [] ∨ Z.of_nat (length ps) ≤ max_objects t))
      as [Hleaf|Hsplit].
    + rewrite (chain_leaf (S n) t ps) by tauto. rewrite insert_leaf by done.
      cbn [objects set_objects max_objects level max_levels].
      destruct (Z.ltb_spec (level t) (max_levels t)); [|lia].
      rewrite andb_true_r, Hall.
      destruct (Z.gtb_spec (Z.of_nat (length (h :: xs))) (max_objects t)).
      * rewrite (chain_split n t h xs c) by (done || lia). fold i.
        pose proof (redistribute_chain n fuel t i c (nodes (split t))
                      Hstep Hilen (h :: xs) [] Hi Hcl) as Hred.
        rewrite chain_nil in Hred by (by destruct Hfc as (_ & ? & _)).
        rewrite list_insert_id in Hred by (by rewrite split_fresh_nodes).
        cbn [app] in Hred.
        replace (set_objects [] (set_nodes
                   (<[i:=chain n c (h :: xs)]> (nodes (split t))) t))
          with (set_nodes (<[i:=chain n c (h :: xs)]> (nodes (split t))) t)
          in Hred by (unfold set_objects, set_nodes; cbn [max_objects max_levels level bounds objects nodes]; by rewrite Ho).
        by rewrite <- Hred.
      * rewrite (chain_leaf (S n) t (h :: xs)) by lia. done.
    + assert (Hlen : Z.of_nat (length ps) > max_objects t) by (destruct ps; [tauto|lia]).
      destruct ps as [|h' ps']; [tauto|]. injection Hall as -> Hxs.
      rewrite (chain_split n t h ps' c) by done. fold i.
      rewrite insert_split
        by (intros Hnil%(f_equal length); simpl in Hnil;
            rewrite length_insert in Hnil; simpl in Hnil; lia).
      assert (Hp : getIndexForPoint
                (set_nodes (<[i:=chain n c (h :: ps')]> (nodes (split t))) t) p
              = Z.of_nat i).
      { apply Hi. rewrite <- Hxs. apply elem_of_cons. right.
        apply elem_of_app. right. by left. }
      rewrite Hp. unfold insert_at. rewrite node_at_nat.
      cbn [nodes set_nodes]. rewrite list_lookup_insert_eq by done.
      rewrite Hstep by (by rewrite <- app_comm_cons, Hxs).
      cbn [mbind res_bind]. rewrite Nat2Z.id, list_insert_insert_eq.
      rewrite <- app_comm_cons, Hxs.
      rewrite (chain_split n t h xs c); [done| |done].
      rewrite <- Hxs. rewrite length_cons, length_app in *. simpl in *. lia.
Qed.

Lemma insert_all_app fuel ps qs t :
  insert_all fuel (ps ++ qs) t
  = (t' ← insert_all fuel ps t; insert_all fuel qs t').
Proof.
  revert t. induction ps as [|p ps IH]; intros t; [done|].
  cbn [app insert_all]. destruct (insert fuel p t); [|done..]. apply IH.
Qed.

Lemma insert_all_chain n t ps fuel :
  fresh t → Z.to_nat (max_levels t - level t) = n →
  clustered n t ps = true → (n < fuel)%nat →
  insert_all fuel ps t = Ok (chain n t ps).
Proof.
  intros Hf Hn Hcl Hfuel. induction ps as [|p ps IH] using rev_ind.
  - simpl. rewrite chain_nil; [done|]. by destruct Hf as (_ & ? & _).
  - rewrite insert_all_app, IH by by eapply clustered_prefix.
    cbn [mbind res_bind insert_all]. by rewrite chain_step.
Qed.

Lemma fresh_depth c : fresh c → depth c = O.
Proof. intros (_ & _ & Hn). by rewrite depth_eq, Hn. Qed.

Lemma fresh_all_points c : fresh c → all_points c = [].
Proof. intros (_ & Ho & Hn). by rewrite all_points_eq, Ho, Hn. Qed.

Lemma foldr_max_fresh (l : list Quadtree) :
  Forall fresh l → foldr Nat.max O (depth <$> l) = O.
Proof.
  induction 1 as [|a l Ha _ IH]; [done|].
  rewrite fmap_cons. cbn [foldr]. by rewrite IH, (fresh_depth a Ha).
Qed.

Lemma foldr_max_insert (l : list Quadtree) i x :
  (i < length l)%nat → Forall fresh l →
  foldr Nat.max O (depth <$> <[i:=x]> l) = depth x.
Proof.
  intros Hi Hl. revert i Hi.
  induction Hl as [|a l Ha Hl IH]; intros i Hi; [simpl in Hi; lia|].
  destruct i as [|i]; cbn [base.insert list_insert]; rewrite fmap_cons; cbn [foldr].
  - rewrite foldr_max_fresh by done. lia.
  - rewrite IH, (fresh_depth a Ha); [done | simpl in Hi; lia].
Qed.

Lemma concat_all_points_fresh (l : list Quadtree) :
  Forall fresh l → concat (all_points <$> l) = [].
Proof.
  induction 1 as [|a l Ha _ IH]; [done|].
  rewrite fmap_cons. cbn [concat]. by rewrite IH, (fresh_all_points a Ha).
Qed.

Lemma concat_all_points_insert (l : list Quadtree) i x :
  (i < length l)%nat → Forall fresh l →
  concat (all_points <$> <[i:=x]> l) = all_points x.
Proof.
  intros Hi Hl. revert i Hi.
  induction Hl as [|a l Ha Hl IH]; intros i Hi; [simpl in Hi; lia|].
  destruct i as [|i]; cbn [base.insert list_insert]; rewrite fmap_cons; cbn [concat].
  - by rewrite concat_all_points_fresh, app_nil_r.
  - rewrite IH, (fresh_all_points a Ha); [done | simpl in Hi; lia].
Qed.

Lemma split_fresh_quadrants t :
  policy_ok t → nodes t = [] → Forall fresh (nodes (split t)).
Proof.
  intros Hp Hn. apply Forall_lookup. intros i c Hi.
  rewrite split_fresh_nodes in Hi by done.
  by destruct (quadrant_fresh t i c Hp Hi).
Qed.

(** The shape of the tree that clustered points make once they exceed the
    capacity: a single branch down to the depth cap, all points at its
    end. *)
Lemma chain_shape n : ∀ t ps,
  fresh t → Z.to_nat (max_levels t - level t) = n →
  ps ≠ [] → Z.of_nat (length ps) > max_objects t →
  clustered n t ps = true →
  depth (chain n t ps) = n ∧
  all_points (chain n t ps) = ps ∧
  ∃ path d, length path = n ∧ descend (chain n t ps) path = Some d ∧
            nodes d = [] ∧ objects d = ps.
Proof.
  induction n as [|n IH]; intros t ps Hf Hlv Hne Hlen Hcl.
  - rewrite chain_leaf by auto. destruct Hf as (_ & _ & Hn).
    rewrite depth_eq, all_points_eq. cbn [nodes objects set_objects].
    rewrite Hn. simpl. rewrite app_nil_r. do 2 (split; [done|]).
    by exists [], (set_objects ps t).
  - destruct ps as [|h xs]; [done|].
    apply clustered_S in Hcl as [Hidx (c & Hq & Hcl)].
    pose proof Hf as (Hpol & Ho & Hn).
    destruct (quadrant_fresh t _ c Hpol Hq) as (Hfc & Hmo & Hlvc).
    rewrite Hlv in Hlvc. cbn [Nat.pred] in Hlvc.
    rewrite (chain_split n t h xs c) by done.
    set (i := Z.to_nat (getIndexForPoint t h)) in *.
    assert (Hilen : (i < length (nodes (split t)))%nat).
    { apply lookup_lt_is_Some. rewrite split_fresh_nodes, Hq by done.
      by eexists. }
    destruct (IH c (h :: xs) Hfc Hlvc Hne) as (Hd & Hall & path & d & Hp & Hdesc & Hdn & Hdo);
      [lia | done |].
    split; [|split].
    + rewrite depth_eq. cbn [nodes set_nodes].
      destruct (<[i:=chain n c (h :: xs)]> (nodes (split t))) eqn:Hnil.
      { apply (f_equal length) in Hnil. rewrite length_insert in Hnil.
        simpl in Hnil. lia. }
      rewrite <- Hnil, foldr_max_insert, Hd; [done | done |].
      by apply split_fresh_quadrants.
    + rewrite all_points_eq. cbn [nodes objects set_nodes]. rewrite Ho.
      rewrite concat_all_points_insert; [done | done |].
      by apply split_fresh_quadrants.
    + exists (i :: path), d. split; [by rewrite length_cons, Hp|].
      split; [|done]. cbn [descend nodes set_nodes].
      by rewrite list_lookup_insert_eq.
Qed.

End single_branch.

(** ** A leaf at the depth cap *)

Section at_the_cap.

Lemma leaf_at_cap fuel qs : ∀ n,
  nodes n = [] → max_levels n ≤ level n →
  insert_all (S fuel) qs n = Ok (set_objects (objects n ++ qs) n).
Proof.
  induction qs as [|q qs IH]; intros n Hn Hlv.
  - simpl. rewrite app_nil_r. by destruct n.
  - cbn [insert_all]. rewrite insert_leaf by done. cbn zeta.
    destruct (Z.ltb_spec (level n) (max_levels n)); [lia|].
    rewrite andb_false_r. cbn [mbind res_bind]. rewrite IH by done.
    cbn [objects set_objects]. by rewrite <- (assoc (++)).
Qed.

End at_the_cap.

(** ** Which subnodes [retrieve] visits *)

Section visited.

Lemma bounds_in_within t pRect :
  bounds_in t pRect = true ↔ within (bounds t) pRect.
Proof.
  unfold bounds_in, within, Qgeb, Qleb.
  rewrite !andb_true_iff, !Qle_bool_iff. tauto.
Qed.

Lemma getIndexForRect_eq t pRect :
  getIndexForRect t pRect =
    if bounds_in t pRect then Ok ALL_NODES else intersecting t pRect 0 4.
Proof. done. Qed.

Lemma getIndexForRect_four t pRect c0 c1 c2 c3 :
  nodes t = [c0; c1; c2; c3] →
  getIndexForRect t pRect =
    Ok (pick (bounds_in t pRect || hasIntersection c0 pRect) [0]
        ++ pick (bounds_in t pRect || hasIntersection c1 pRect) [1]
        ++ pick (bounds_in t pRect || hasIntersection c2 pRect) [2]
        ++ pick (bounds_in t pRect || hasIntersection c3 pRect) [3]).
Proof.
  intros Hn. rewrite getIndexForRect_eq.
  destruct (bounds_in t pRect); [done|].
  unfold intersecting, node_at, at_index. rewrite Hn. simpl.
  by destruct (hasIntersection c0 pRect), (hasIntersection c1 pRect),
    (hasIntersection c2 pRect), (hasIntersection c3 pRect).
Qed.

(** [retrieve] on a node with four subnodes: the node's objects, then
    what [retrieve] gives on each visited subnode, by index. *)
Lemma retrieve_four t pRect c0 c1 c2 c3 l0 l1 l2 l3 :
  nodes t = [c0; c1; c2; c3] →
  retrieve pRect c0 = Ok l0 → retrieve pRect c1 = Ok l1 →
  retrieve pRect c2 = Ok l2 → retrieve pRect c3 = Ok l3 →
  retrieve pRect t =
    Ok (objects t
        ++ pick (bounds_in t pRect || hasIntersection c0 pRect) l0
        ++ pick (bounds_in t pRect || hasIntersection c1 pRect) l1
        ++ pick (bounds_in t pRect || hasIntersection c2 pRect) l2
        ++ pick (bounds_in t pRect || hasIntersection c3 pRect) l3).
Proof.
  intros Hn H0 H1 H2 H3. rewrite retrieve_eq.
  rewrite (proj2 (node0_defined_true t)) by by rewrite Hn.
  rewrite (getIndexForRect_four t pRect c0 c1 c2 c3 Hn), Hn.
  cbn [mbind res_bind fmap list_fmap]. rewrite H0, H1, H2, H3.
  destruct (bounds_in t pRect || hasIntersection c0 pRect),
    (bounds_in t pRect || hasIntersection c1 pRect),
    (bounds_in t pRect || hasIntersection c2 pRect),
    (bounds_in t pRect || hasIntersection c3 pRect);
    simpl; unfold at_index; simpl; by rewrite ?app_nil_r, <- ?(assoc (++)).
Qed.

Lemma wf_four t :
  wf t → nodes t ≠ [] → ∃ c0 c1 c2 c3, nodes t = [c0; c1; c2; c3].
Proof.
  intros Hwf Hn. destruct (wf_splitting t Hwf Hn) as [(_ & _ & Hlen & _) _].
  destruct (nodes t) as [|c0 [|c1 [|c2 [|c3 [|]]]]]; try done.
  by exists c0, c1, c2, c3.
Qed.

Lemma all_points_four t c0 c1 c2 c3 :
  nodes t = [c0; c1; c2; c3] →
  all_points t =
    objects t ++ all_points c0 ++ all_points c1 ++ all_points c2
    ++ all_points c3.
Proof.
  intros Hn. rewrite all_points_eq, Hn. simpl. by rewrite app_nil_r.
Qed.

Lemma pick_sublist {A} (b b' : bool) (l l' : list A) :
  (b = true → b' = true) → sublist l l' → sublist (pick b l) (pick b' l').
Proof.
  intros Hb Hl. destruct b; simpl.
  - by rewrite Hb.
  - apply sublist_nil_l.
Qed.

Lemma pick_sublist_all {A} (b : bool) (l l' : list A) :
  sublist l l' → sublist (pick b l) l'.
Proof. intros Hl. destruct b; [done | apply sublist_nil_l]. Qed.

End visited.

Section retrieve_more.

Lemma hasIntersection_within c (r r' : Rect) :
  within r r' → hasIntersection c r = true → hasIntersection c r' = true.
Proof.
  intros (Hl & Hr & Hb & Ht). unfold hasIntersection.
  rewrite !negb_true_iff, !orb_false_iff, !Qltb_ge.
  intros (((?&?)&?)&?). repeat split; eapply Qle_trans; eauto.
Qed.

Lemma within_hasIntersection c (r : Rect) :
  proper (bounds c) → within (bounds c) r → hasIntersection c r = true.
Proof.
  intros [Hlr Hbt] (Hl & Hr & Hb & Ht). unfold hasIntersection.
  rewrite !negb_true_iff, !orb_false_iff, !Qltb_ge.
  repeat split; eapply Qle_trans; eauto.
Qed.

Lemma retrieve_sublist pRect t :
  wf t → ∃ l, retrieve pRect t = Ok l ∧ sublist l (all_points t).
Proof.
  induction 1 as [t Hp Hn|t Hp Ho Hl Hlen Hch Hwf IH].
  - exists (objects t). rewrite retrieve_eq, all_points_eq, Hn.
    rewrite (proj2 (node0_defined_false t) Hn). simpl. by rewrite app_nil_r.
  - destruct (nodes t) as [|c0 [|c1 [|c2 [|c3 [|]]]]] eqn:Hn; try done.
    destruct (IH 0%nat c0 eq_refl) as (l0 & H0 & S0).
    destruct (IH 1%nat c1 eq_refl) as (l1 & H1 & S1).
    destruct (IH 2%nat c2 eq_refl) as (l2 & H2 & S2).
    destruct (IH 3%nat c3 eq_refl) as (l3 & H3 & S3).
    eexists. split; [by apply (retrieve_four t pRect c0 c1 c2 c3)|].
    rewrite (all_points_four t c0 c1 c2 c3 Hn).
    by repeat (apply sublist_app; [done || by apply pick_sublist_all|]);
      apply pick_sublist_all.
Qed.

Lemma retrieve_mono (r r' : Rect) t :
  wf t → within r r' →
  ∃ l l', retrieve r t = Ok l ∧ retrieve r' t = Ok l' ∧ sublist l l'.
Proof.
  intros Hwf Hin. induction Hwf as [t Hp Hn|t Hp Ho Hl Hlen Hch Hwf IH].
  - exists (objects t), (objects t). rewrite !retrieve_eq.
    by rewrite (proj2 (node0_defined_false t) Hn).
  - destruct (nodes t) as [|c0 [|c1 [|c2 [|c3 [|]]]]] eqn:Hn; try done.
    destruct (IH 0%nat c0 eq_refl) as (l0 & l0' & H0 & H0' & S0).
    destruct (IH 1%nat c1 eq_refl) as (l1 & l1' & H1 & H1' & S1).
    destruct (IH 2%nat c2 eq_refl) as (l2 & l2' & H2 & H2' & S2).
    destruct (IH 3%nat c3 eq_refl) as (l3 & l3' & H3 & H3' & S3).
    do 2 eexists.
    split; [by apply (retrieve_four t r c0 c1 c2 c3)|].
    split; [by apply (retrieve_four t r' c0 c1 c2 c3)|].
    assert (Hsel : ∀ c, bounds_in t r || hasIntersection c r = true →
                        bounds_in t r' || hasIntersection c r' = true).
    { intros c [Hb|Hh]%orb_true_iff; apply orb_true_iff.
      - left. apply bounds_in_within. apply bounds_in_within in Hb.
        by eapply within_trans.
      - right. by eapply hasIntersection_within. }
    by repeat (apply sublist_app; [done || by apply pick_sublist; [apply Hsel|]|]);
      apply pick_sublist; [apply Hsel|].
Qed.

Lemma elem_of_pick {A} (b : bool) (l : list A) x :
  x ∈ pick b l → b = true ∧ x ∈ l.
Proof. destruct b; [done | by intros ?%elem_of_nil]. Qed.

Lemma retrieve_precise pRect t :
  wf t → proper (bounds t) →
  (nodes t = [] → hasIntersection t pRect = true) →
  ∃ l, retrieve pRect t = Ok l ∧
    ∀ p, p ∈ l →
      ∃ path n, descend t path = Some n ∧ nodes n = [] ∧ p ∈ objects n ∧
                hasIntersection n pRect = true.
Proof.
  induction 1 as [t Hp Hn|t Hp Ho Hl Hlen Hch Hwf IH]; intros Hpr Hhit.
  - exists (objects t). rewrite retrieve_eq.
    rewrite (proj2 (node0_defined_false t) Hn). split; [done|].
    intros p Hpo. exists [], t. auto.
  - assert (Hsub : ∀ i c, nodes t !! i = Some c →
              bounds_in t pRect || hasIntersection c pRect = true →
              ∃ l, retrieve pRect c = Ok l ∧
                ∀ p, p ∈ l →
                  ∃ path n, descend t path = Some n ∧ nodes n = [] ∧
                            p ∈ objects n ∧ hasIntersection n pRect = true).
    { intros i c Hc Hsel.
      destruct (Hch i c Hc) as [(s & Hs & Hh) _].
      destruct (quadrant_proper t i s Hp Hs Hpr) as [Hprs Hws].
      injection Hh as _ _ _ Hb. rewrite <- Hb in Hprs, Hws.
      assert (Hc_hit : hasIntersection c pRect = true).
      { apply orb_true_iff in Hsel as [Hin|?]; [|done].
        apply within_hasIntersection; [done|].
        eapply within_trans; [done|]. by apply bounds_in_within. }
      destruct (IH i c Hc Hprs (λ _, Hc_hit)) as (l & Hl' & Hfrom).
      exists l. split; [done|]. intros p Hpl.
      destruct (Hfrom p Hpl) as (path & n & Hd & Hn & Hpo & Hnh).
      exists (i :: path), n. split; [|done]. simpl. by rewrite Hc. }
    assert (Hret : ∀ i c, nodes t !! i = Some c → ∃ l, retrieve pRect c = Ok l).
    { intros i c Hc. destruct (retrieve_sublist pRect c (Hwf i c Hc)) as (l & ? & _).
      by exists l. }
    destruct (nodes t) as [|c0 [|c1 [|c2 [|c3 [|]]]]] eqn:Hn; try done.
    destruct (Hret 0%nat c0 eq_refl) as [l0 H0].
    destruct (Hret 1%nat c1 eq_refl) as [l1 H1].
    destruct (Hret 2%nat c2 eq_refl) as [l2 H2].
    destruct (Hret 3%nat c3 eq_refl) as [l3 H3].
    eexists. split; [by apply (retrieve_four t pRect c0 c1 c2 c3)|].
    rewrite Ho. intros p Hp'. simpl in Hp'.
    repeat (apply elem_of_app in Hp' as [Hp'|Hp']);
      apply elem_of_pick in Hp' as [Hsel Hp'].
    + destruct (Hsub 0%nat c0 eq_refl Hsel) as (l & Hl' & Hfrom).
      apply Hfrom. congruence.
    + destruct (Hsub 1%nat c1 eq_refl Hsel) as (l & Hl' & Hfrom).
      apply Hfrom. congruence.
    + destruct (Hsub 2%nat c2 eq_refl Hsel) as (l & Hl' & Hfrom).
      apply Hfrom. congruence.
    + destruct (Hsub 3%nat c3 eq_refl Hsel) as (l & Hl' & Hfrom).
      apply Hfrom. congruence.
Qed.

End retrieve_more.

(** ** The shape of well-formed trees *)

Section shape.



Lemma wf_child t i c :
  wf t → nodes t !! i = Some c → wf c ∧ child_ok t i c ∧ policy_ok t.
Proof.
  intros Hwf Hc. destruct Hwf as [t Hp Hn|t Hp _ _ _ Hch Hwf].
  - by rewrite Hn in Hc.
  - split; [by eapply Hwf|]. split; [by eapply Hch | done].
Qed.


Lemma all_points_descend t : ∀ path n p,
  descend t path = Some n → p ∈ all_points n → p ∈ all_points t.
Proof.
  intros path. revert t. induction path as [|i path IH]; intros t n p Hd Hp.
  - by injection Hd as <-.
  - simpl in Hd. destruct (nodes t !! i) as [c|] eqn:Hc; [|done].
    rewrite all_points_eq. apply elem_of_app. right.
    apply elem_of_concat_fmap. exists i, c. split; [done|]. by eapply IH.
Qed.

Lemma objects_all_points n p : p ∈ objects n → p ∈ all_points n.
Proof. intros Hp. rewrite all_points_eq. apply elem_of_app. by left. Qed.

Lemma wf_descend_inside t : ∀ path n p,
  wf t → descend t path = Some n → p ∈ all_points n →
  inside p (bounds t) → inside p (bounds n).
Proof.
  intros path. revert t. induction path as [|i path IH]; intros t n p Hwf Hd Hp Hin.
  - by injection Hd as <-.
  - simpl in Hd. destruct (nodes t !! i) as [c|] eqn:Hc; [|done].
    destruct (wf_child t i c Hwf Hc) as (Hwfc & [(s & Hs & Hh) Hroute] & _).
    apply (IH c n p Hwfc Hd Hp).
    injection Hh as _ _ _ ->.
    apply (quadrant_inside t i s p Hs); [|done].
    apply Hroute. by eapply all_points_descend.
Qed.

End shape.

(** ** The capacity is kept *)

Section capacity.

Context (ins : Point → Quadtree → res Quadtree).
Context (Hins : insert_spec ins) (Hcap : capped_spec ins).

Lemma insert_at_capped p t t' :
  splitting t → (∀ i c, nodes t !! i = Some c → capped c) →
  insert_at ins (getIndexForPoint t p) p t = Ok t' →
  ∀ i c, nodes t' !! i = Some c → capped c.
Proof.
  intros (Hp & Hl & Hlen & Hch & Hwf) Hall Hat j d Hd.
  unfold insert_at in Hat.
  pose proof (getIndexForPoint_range t p) as Hr.
  set (i := Z.to_nat (getIndexForPoint t p)) in *.
  assert (Hi : getIndexForPoint t p = Z.of_nat i) by lia.
  rewrite Hi, node_at_nat in Hat.
  destruct (nodes t !! i) as [c|] eqn:Hc; [|done].
  destruct (ins p c) as [c'| |] eqn:Hc'; simplify_eq/=.
  destruct (decide (i = j)) as [<-|Hne].
  - rewrite list_lookup_insert_eq in Hd by (by eapply lookup_lt_Some).
    injection Hd as <-. by eapply Hcap; [eapply Hwf | eapply Hall |].
  - rewrite list_lookup_insert_ne in Hd by done. by eapply Hall.
Qed.

Lemma redistribute_capped : ∀ rest t t',
  splitting t → objects t = rest →
  (∀ i c, nodes t !! i = Some c → capped c) →
  redistribute ins [] rest t = Ok t' →
  ∀ i c, nodes t' !! i = Some c → capped c.
Proof.
  induction rest as [|o rest IH]; intros t t' Hs Ho Hall Hr; simpl in Hr.
  - by injection Hr as <-.
  - rewrite getIndexForPoint_defined in Hr. simpl in Hr.
    set (t1 := set_objects rest t) in *.
    assert (Hs1 : splitting t1) by by apply (splitting_header t).
    rewrite (getIndexForPoint_header t t1) in Hr by done.
    destruct (insert_at ins _ o t1) as [t2| |] eqn:Hat; simplify_eq/=.
    destruct (insert_at_spec ins Hins _ _ _ Hs1 Hat) as (Hs2 & _ & Ho2 & _).
    apply (IH t2 t' Hs2 Ho2); [|done].
    by apply (insert_at_capped o t1 t2).
Qed.

End capacity.

Lemma fresh_capped c : fresh c → capped c.
Proof.
  intros (_ & Ho & Hn). apply capped_leaf; [done|]. rewrite Ho. simpl. lia.
Qed.

Lemma splitting_nonempty t : splitting t → nodes t ≠ [].
Proof. intros (_ & _ & Hlen & _). by destruct (nodes t). Qed.

Lemma insert_capped fuel : capped_spec (insert fuel).
Proof.
  induction fuel as [|fuel IH]; intros p t t' Hwf Hc Hins; [done|].
  destruct (nodes t) eqn:Hn.
  - rewrite insert_leaf in Hins by done. cbn zeta in Hins.
    pose proof (wf_policy_ok _ Hwf) as Hpol.
    set (t1 := set_objects (objects t ++ [p]) t) in *.
    destruct (Z.gtb_spec (Z.of_nat (length (objects t1))) (max_objects t)) as [Hgt|Hle];
      destruct (Z.ltb_spec (level t) (max_levels t)) as [Hlv|Hlv];
      simpl in Hins.
    + destruct (split_leaf t1 Hpol Hn Hlv) as (Hs & Hh & Ho & _).
      destruct (redistribute_spec _ (insert_wf fuel) _ _ _ Hs Ho Hins)
        as (Hs' & _).
      apply capped_split; [by apply splitting_nonempty|].
      apply (redistribute_capped _ (insert_wf fuel) IH _ _ _ Hs Ho); [|done].
      intros i c Hi. apply fresh_capped.
      assert (Hq : nodes (split t1) !! i = quadrant t1 i).
      { unfold quadrant. simpl. by rewrite Hn. }
      rewrite Hq in Hi. by destruct (quadrant_fresh t1 i c Hpol Hi).
    + injection Hins as <-. apply capped_leaf; [done|]. simpl. lia.
    + injection Hins as <-. apply capped_leaf; [done|]. simpl in *. lia.
    + injection Hins as <-. apply capped_leaf; [done|]. simpl. lia.
  - assert (Hne : nodes t ≠ []) by by rewrite Hn.
    rewrite insert_split in Hins by done.
    destruct (wf_splitting _ Hwf Hne) as [Hs Ho].
    destruct (insert_at_spec _ (insert_wf fuel) _ _ _ Hs Hins) as (Hs' & _).
    apply capped_split; [by apply splitting_nonempty|].
    apply (insert_at_capped _ IH p t t' Hs); [|done].
    destruct Hc as [t Hn' _|t _ Hall]; [by rewrite Hn' in Hn | done].
Qed.

Lemma clear_capped t : capped (clear t).
Proof. rewrite clear_eq. apply capped_leaf; [done|]. simpl. lia. Qed.

Lemma reachable_capped t : reachable t → capped t.
Proof.
  induction 1 as [b mo ml lv|fuel p t t' Hr IH Hins|t _ IH].
  - apply capped_leaf; [done|]. simpl. lia.
  - by apply (insert_capped fuel p t t'); [apply reachable_wf|..].
  - apply clear_capped.
Qed.

Lemma capped_descend t : ∀ path n,
  capped t → descend t path = Some n → capped n.
Proof.
  intros path. revert t. induction path as [|i path IH]; intros t n Hc Hd.
  - by injection Hd as <-.
  - simpl in Hd. destruct (nodes t !! i) as [c|] eqn:Hi; [|done].
    destruct Hc as [t Hn _|t _ Hall]; [by rewrite Hn in Hi|].
    by eapply IH, Hd; eapply Hall.
Qed.

(** ** Rectangles and indices *)

Section geometry.

Lemma common_coordinate (a b c d : Q) :
  (a <= c)%Q → (b <= c)%Q → (a <= d)%Q → (b <= d)%Q →
  ∃ x, (a <= x)%Q ∧ (b <= x)%Q ∧ (x <= c)%Q ∧ (x <= d)%Q.
Proof.
  intros. destruct (Qlt_le_dec a b); [exists b | exists a];
    repeat split; lra.
Qed.

Lemma hasIntersection_true c (r : Rect) :
  hasIntersection c r = true ↔
  (left (bounds c) <= right r)%Q ∧ (left r <= right (bounds c))%Q ∧
  (bottom (bounds c) <= top r)%Q ∧ (bottom r <= top (bounds c))%Q.
Proof.
  unfold hasIntersection.
  rewrite !negb_true_iff, !orb_false_iff, !Qltb_ge. tauto.
Qed.


Lemma elem_of_pick_one (b : bool) (j k : Z) :
  j ∈ pick b [k] ↔ b = true ∧ j = k.
Proof.
  destruct b; simpl.
  - rewrite list_elem_of_singleton. split; [by intros -> | by intros [_ ->]].
  - split; [by intros ?%elem_of_nil | by intros [? _]].
Qed.

End geometry.

(** ** Objects stay in the order of insertion *)

Lemma in_order_sublist ps ps' t :
  sublist ps ps' → in_order ps t → in_order ps' t.
Proof.
  intros Hs. induction 1 as [t Ho _ IH]. apply in_order_node; [|done].
  by trans ps.
Qed.

Lemma fresh_in_order ps c : fresh c → in_order ps c.
Proof.
  intros (_ & Ho & Hn). apply in_order_node.
  - rewrite Ho. apply sublist_nil_l.
  - intros i d Hd. by rewrite Hn in Hd.
Qed.

Section order.

Context (ins : Point → Quadtree → res Quadtree).
Context (Hins : insert_spec ins) (Hord : in_order_spec ins).

Lemma insert_at_in_order ps p t t' :
  splitting t → (∀ i c, nodes t !! i = Some c → in_order ps c) →
  insert_at ins (getIndexForPoint t p) p t = Ok t' →
  ∀ i c, nodes t' !! i = Some c → in_order (ps ++ [p]) c.
Proof.
  intros (Hp & Hl & Hlen & Hch & Hwf) Hall Hat j d Hd.
  unfold insert_at in Hat.
  pose proof (getIndexForPoint_range t p) as Hr.
  set (i := Z.to_nat (getIndexForPoint t p)) in *.
  assert (Hi : getIndexForPoint t p = Z.of_nat i) by lia.
  rewrite Hi, node_at_nat in Hat.
  destruct (nodes t !! i) as [c|] eqn:Hc; [|done].
  destruct (ins p c) as [c'| |] eqn:Hc'; simplify_eq/=.
  destruct (decide (i = j)) as [<-|Hne].
  - rewrite list_lookup_insert_eq in Hd by (by eapply lookup_lt_Some).
    injection Hd as <-. by eapply Hord; [eapply Hwf | eapply Hall |].
  - rewrite list_lookup_insert_ne in Hd by done.
    apply (in_order_sublist ps); [by apply sublist_inserts_r | by eapply Hall].
Qed.

Lemma redistribute_in_order : ∀ rest moved t t',
  splitting t → objects t = rest →
  (∀ i c, nodes t !! i = Some c → in_order moved c) →
  redistribute ins [] rest t = Ok t' →
  ∀ i c, nodes t' !! i = Some c → in_order (moved ++ rest) c.
Proof.
  induction rest as [|o rest IH]; intros moved t t' Hs Ho Hall Hr; simpl in Hr.
  - injection Hr as <-. by rewrite app_nil_r.
  - rewrite getIndexForPoint_defined in Hr. simpl in Hr.
    set (t1 := set_objects rest t) in *.
    assert (Hs1 : splitting t1) by by apply (splitting_header t).
    rewrite (getIndexForPoint_header t t1) in Hr by done.
    destruct (insert_at ins _ o t1) as [t2| |] eqn:Hat; simplify_eq/=.
    destruct (insert_at_spec ins Hins _ _ _ Hs1 Hat) as (Hs2 & _ & Ho2 & _).
    intros j d Hd. rewrite (cons_middle o moved rest), (assoc (++)).
    apply (IH (moved ++ [o]) t2 t' Hs2 Ho2) with j; [|done..].
    by apply (insert_at_in_order moved o t1 t2).
Qed.

End order.

Lemma insert_in_order fuel : in_order_spec (insert fuel).
Proof.
  induction fuel as [|fuel IH]; intros ps p t t' Hwf Hio Hins; [done|].
  destruct Hio as [t Hobj Hall].
  destruct (nodes t) eqn:Hn.
  - rewrite insert_leaf in Hins by done. cbn zeta in Hins.
    pose proof (wf_policy_ok _ Hwf) as Hpol.
    set (t1 := set_objects (objects t ++ [p]) t) in *.
    assert (Hobj1 : sublist (objects t1) (ps ++ [p])) by by apply sublist_app.
    destruct (_ && _) eqn:Hcond.
    + apply andb_prop in Hcond as [_ Hlv%Z.ltb_lt].
      destruct (split_leaf t1 Hpol Hn Hlv) as (Hs & Hh & Ho & _).
      destruct (redistribute_spec _ (insert_wf fuel) _ _ _ Hs Ho Hins)
        as (Hs' & Ho' & _).
      apply in_order_node; [rewrite Ho'; apply sublist_nil_l|].
      intros i c Hc.
      apply (in_order_sublist (objects t1)); [done|].
      apply (redistribute_in_order _ (insert_wf fuel) IH (objects t1) []
               (split t1) t' Hs Ho) with i; [|done..].
      intros j d Hd. apply fresh_in_order.
      assert (Hq : nodes (split t1) !! j = quadrant t1 j).
      { unfold quadrant. simpl. by rewrite Hn. }
      rewrite Hq in Hd. by destruct (quadrant_fresh t1 j d Hpol Hd).
    + injection Hins as <-. apply in_order_node; [done|].
      intros i c Hc. simpl in Hc. by rewrite Hn in Hc.
  - assert (Hne : nodes t ≠ []) by by rewrite Hn.
    rewrite insert_split in Hins by done.
    destruct (wf_splitting _ Hwf Hne) as [Hs Ho].
    destruct (insert_at_spec _ (insert_wf fuel) _ _ _ Hs Hins)
      as (_ & _ & Ho' & _).
    apply in_order_node; [rewrite Ho', Ho; apply sublist_nil_l|].
    apply (insert_at_in_order _ IH ps p t t' Hs); [|done].
    by rewrite Hn.
Qed.

Lemma insert_all_in_order fuel points : ∀ ps t t',
  wf t → in_order ps t → insert_all fuel points t = Ok t' →
  in_order (ps ++ points) t'.
Proof.
  induction points as [|p points IH]; intros ps t t' Hwf Hio Hall;
    simpl in Hall.
  - injection Hall as <-. by rewrite app_nil_r.
  - destruct (insert fuel p t) as [t1| |] eqn:Hins; simplify_eq/=.
    destruct (insert_wf fuel p t t1 Hwf Hins) as (Hwf1 & _).
    rewrite (cons_middle p ps points), (assoc (++)).
    apply (IH (ps ++ [p]) t1 t' Hwf1); [|done].
    by apply (insert_in_order fuel ps p t t1).
Qed.

Lemma in_order_descend ps t : ∀ path n,
  in_order ps t → descend t path = Some n → sublist (objects n) ps.
Proof.
  intros path. revert t. induction path as [|i path IH]; intros t n Hio Hd.
  - injection Hd as <-. by destruct Hio.
  - simpl in Hd. destruct (nodes t !! i) as [c|] eqn:Hc; [|done].
    destruct Hio as [t _ Hall]. by eapply IH, Hd; eapply Hall.
Qed.

(** ** The order of doubles *)

Section float_order.

#[local] Open Scope float_scope.

Ltac cmp_cases :=
  repeat match goal with
  | |- context [(?a ?= ?b)%Z] => destruct (Z.compare_spec a b)
  | |- context [PosDef.Pos.compare_cont Eq ?a ?b] =>
      change (PosDef.Pos.compare_cont Eq a b) with (a ?= b)%positive;
      destruct (Pos.compare_spec a b)
  end.

Lemma SFleb_trans a b c :
  SFleb a b = true → SFleb b c = true → SFleb a c = true.
Proof.
  unfold SFleb, SFcompare.
  destruct a as [[]|[]| |[] ma ea], b as [[]|[]| |[] mb eb],
    c as [[]|[]| |[] mc ec]; try done;
    cmp_cases; simpl; intros; try done; lia.
Qed.


Lemma SFltb_leb a b : SFltb a b = true → SFleb a b = true.
Proof. unfold SFltb, SFleb. by destruct (SFcompare a b) as [[]|]. Qed.


Lemma SFleb_not_ltb a b : SFleb a b = true → SFltb b a = false.
Proof.
  unfold SFleb, SFltb, SFcompare.
  destruct a as [[]|[]| |[] ma ea], b as [[]|[]| |[] mb eb]; try done;
    cmp_cases; simpl; intros; try done; lia.
Qed.

Lemma leb_trans (a b c : float) :
  (a <=? b) = true → (b <=? c) = true → (a <=? c) = true.
Proof. rewrite !leb_spec. apply SFleb_trans. Qed.


Lemma ltb_leb (a b : float) : (a <? b) = true → (a <=? b) = true.
Proof. rewrite leb_spec, ltb_spec. apply SFltb_leb. Qed.


Lemma leb_not_ltb (a b : float) : (a <=? b) = true → (b <? a) = false.
Proof. rewrite leb_spec, ltb_spec. apply SFleb_not_ltb. Qed.

End float_order.

(** [a <= b] from the comparisons at hand, by transitivity. *)
Ltac chain := eauto 5 using leb_trans, ltb_leb.

(** ** [split] and [getIndexForRect] in doubles *)

Section doubles.

#[local] Open Scope float_scope.

Lemma doubles_new_Quadtree r mo ml lv :
  mo ≠ 0%Z → ml ≠ 0%Z →
  Doubles.new_Quadtree r (Some mo) (Some ml) (Some lv)
  = Doubles.mkQuadtree mo ml lv
      (Doubles.mkBounds r (Doubles.right r - Doubles.left r)
         (Doubles.top r - Doubles.bottom r)) [] [].
Proof.
  intros. unfold Doubles.new_Quadtree.
  by rewrite or_default_level, !or_default_some by done.
Qed.

(** The four nodes [split] makes on a node the constructor made. *)
Lemma doubles_split_nodes b mo ml lv objs :
  let n := Doubles.set_objects objs (Doubles.new_Quadtree b mo ml lv) in
  let hm := Doubles.left b + (Doubles.right b - Doubles.left b) / 2 in
  let vm := Doubles.bottom b + (Doubles.top b - Doubles.bottom b) / 2 in
  let child r :=
    Doubles.mkQuadtree (Doubles.max_objects n) (Doubles.max_levels n)
      (Doubles.level n + 1)
      (Doubles.mkBounds r (Doubles.right r - Doubles.left r)
         (Doubles.top r - Doubles.bottom r)) [] [] in
  Doubles.nodes (Doubles.split n)
  = [ child (Doubles.mkRect hm (Doubles.bottom b) (Doubles.right b) vm);
      child (Doubles.mkRect (Doubles.left b) (Doubles.bottom b) hm vm);
      child (Doubles.mkRect (Doubles.left b) vm hm (Doubles.top b));
      child (Doubles.mkRect hm vm (Doubles.right b) (Doubles.top b)) ].
Proof.
  cbv zeta. unfold Doubles.split, Doubles.horMidpoint, Doubles.verMidpoint.
  cbn [Doubles.nodes Doubles.set_nodes Doubles.set_objects
       Doubles.new_Quadtree Doubles.max_objects Doubles.max_levels
       Doubles.level Doubles.bounds Doubles.rect Doubles.width
       Doubles.height drop app].
  rewrite !doubles_new_Quadtree by by apply or_default_nonzero.
  done.
Qed.



End doubles.

(** ** The concrete trees *)

Lemma scenario_tree_eq :
  insert_all 5 scenario_points scenario_root = Ok scenario_tree.
Proof. vm_compute. reflexivity. Qed.

Lemma scenario_tree_reachable : reachable scenario_tree.
Proof.
  eapply insert_all_reachable; [|apply scenario_tree_eq]. apply reach_new.
Qed.

(** Inequalities between given numbers. *)
Ltac numbers := unfold inside, within, proper; simpl; repeat split; lra.

(** * Properties of the specification *)

(** C1, as the code has it: a tree made from a constructed root by calls of
    [insert] gives, for every query rectangle, every inserted point that
    lies in the root's bounds and in the rectangle. *)
Theorem retrieve_superset_in_bounds
    fuel b mo ml lv points t (pRect : Rect) p :
  insert_all fuel points (new_Quadtree b mo ml lv) = Ok t →
  p ∈ points → inside p b → inside p pRect →
  ∃ l, retrieve pRect t = Ok l ∧ p ∈ l.
Proof.
  intros Hall Hp Hb HR.
  destruct (insert_all_wf _ _ _ _ (new_Quadtree_wf b mo ml lv) Hall)
    as (Hwf & Hh & Hperm).
  destruct (retrieve_wf pRect t Hwf) as (l & Hl & _ & Hfind).
  exists l. split; [done|]. apply Hfind; [|by injection Hh as _ _ _ ->|done].
  rewrite Hperm. by apply elem_of_app; right.
Qed.

Lemma retrieve_superset_in_bounds_witness :
  ∃ l, retrieve (mkRect 0 0 50 50) scenario_tree = Ok l ∧ pt 20 20 ∈ l.
Proof.
  apply (retrieve_superset_in_bounds 5 (mkRect 0 0 100 100) (Some 2) (Some 4)
           None scenario_points scenario_tree (mkRect 0 0 50 50) (pt 20 20)).
  - vm_compute. reflexivity.
  - unfold scenario_points. repeat constructor.
  - numbers.
  - numbers.
Defined.

(** C1 as stated fails: the point (150,150), inserted into a root of bounds
    [0,100] x [0,100], lies in the query rectangle [140,160] x [140,160] and
    [retrieve] returns nothing. *)
Lemma retrieve_misses_point_outside_bounds :
  ∃ t, insert_all 5 outside_points outside_root = Ok t ∧
       pt 150 150 ∈ outside_points ∧
       inside (pt 150 150) (mkRect 140 140 160 160) ∧
       retrieve (mkRect 140 140 160 160) t = Ok [].
Proof.
  eexists. split; [vm_compute; reflexivity|]. split; [by left|].
  split; [numbers|]. vm_compute. reflexivity.
Qed.

(** The converse of C1 does not hold: [retrieve] gives (30,30) for the query
    rectangle [0,25] x [0,25]. *)
Example retrieve_broad_phase :
  retrieve (mkRect 0 0 25 25) scenario_tree = Ok scenario_points ∧
  ¬ inside (pt 30 30) (mkRect 0 0 25 25).
Proof.
  split; [vm_compute; reflexivity|]. unfold inside; simpl. lra.
Qed.

(** C2, as the code has it: when the root's bounds follow the convention
    ([left <= right], [bottom <= top]) and the query rectangle holds them,
    [retrieve] returns the inserted points, each as often as it was
    inserted. *)
Theorem retrieve_containing_root_bounds
    fuel (b : Rect) mo ml lv points t (pRect : Rect) :
  proper b → within b pRect →
  insert_all fuel points (new_Quadtree b mo ml lv) = Ok t →
  ∃ l, retrieve pRect t = Ok l ∧ l ≡ₚ points.
Proof.
  intros Hpr Hin Hall.
  destruct (insert_all_wf _ _ _ _ (new_Quadtree_wf b mo ml lv) Hall)
    as (Hwf & Hh & Hperm).
  injection Hh as _ _ _ Hb.
  exists (all_points t). split; [|done].
  apply retrieve_all; [done|by rewrite Hb..].
Qed.

Lemma retrieve_containing_root_bounds_witness :
  ∃ l, retrieve (mkRect (-1) (-1) 101 101) scenario_tree = Ok l ∧
       l ≡ₚ scenario_points.
Proof.
  apply (retrieve_containing_root_bounds 5 (mkRect 0 0 100 100) (Some 2)
           (Some 4) None scenario_points scenario_tree).
  - numbers.
  - numbers.
  - vm_compute. reflexivity.
Defined.

(** C2 as stated fails: on a root with [left = 100 > right = 0] the query
    rectangle [60,70] x [0,100] satisfies the four inequalities and
    [retrieve] returns nothing, though two points were inserted. *)
Lemma retrieve_loses_points_inverted_bounds :
  ∃ t, insert_all 5 inverted_points inverted_root = Ok t ∧
       within (bounds inverted_root) (mkRect 60 0 70 100) ∧
       retrieve (mkRect 60 0 70 100) t = Ok [].
Proof.
  eexists. split; [vm_compute; reflexivity|].
  split; [numbers|]. vm_compute. reflexivity.
Qed.

(** C3: on bounds [{left:0, right:100, bottom:0, top:100}] with
    [max_objects = 2] and [max_levels = 4], inserting (10,10), (20,20),
    (30,30) leaves the root split with no objects of its own and the three
    points in the subtree at index 1; the query rectangle [0,50] x [0,50]
    gets exactly the three points and [60,100] x [60,100] gets none. *)
Theorem scenario_three_points :
  ∃ t c0 c1 c2 c3,
    insert_all 5 [pt 10 10; pt 20 20; pt 30 30]
      (new_Quadtree (mkRect 0 0 100 100) (Some 2) (Some 4) None) = Ok t ∧
    objects t = [] ∧
    nodes t = [c0; c1; c2; c3] ∧
    all_points c1 = [pt 10 10; pt 20 20; pt 30 30] ∧
    all_points c0 = [] ∧ all_points c2 = [] ∧ all_points c3 = [] ∧
    retrieve (mkRect 0 0 50 50) t = Ok [pt 10 10; pt 20 20; pt 30 30] ∧
    retrieve (mkRect 60 60 100 100) t = Ok [].
Proof.
  do 5 eexists. split; [vm_compute; reflexivity|].
  split; [reflexivity|]. split; [reflexivity|].
  repeat split; vm_compute; reflexivity.
Qed.

(** C4: a node of a reachable tree whose level has reached [max_levels] is
    a leaf, and stays one whatever is inserted into it, its objects growing
    by every point.  And on a root of level 0, at least one and at least
    [max_objects + 1] points that get the same subnode index at every level
    make a tree of depth [max_levels] (of depth 0 when [max_levels] is
    negative): one node at that depth is a leaf holding all the points, in
    the order of insertion, and no other node holds any. *)
Theorem depth_cap :
  (∀ t n, reachable t → subnode n t → max_levels n ≤ level n →
     nodes n = [] ∧
     ∀ fuel qs,
       insert_all (S fuel) qs n = Ok (set_objects (objects n ++ qs) n)) ∧
  (∀ b mo ml ps fuel,
     let root := new_Quadtree b mo ml None in
     let L := Z.to_nat (max_levels root) in
     ps ≠ [] → max_objects root + 1 ≤ Z.of_nat (length ps) →
     clustered L root ps = true → (L < fuel)%nat →
     ∃ t path d,
       insert_all fuel ps root = Ok t ∧
       depth t = L ∧
       length path = L ∧ descend t path = Some d ∧
       nodes d = [] ∧ objects d = ps ∧
       all_points t = ps).
Proof.
  split.
  - intros t n Hr Hsub Hlv.
    pose proof (wf_subnode n t (reachable_wf t Hr) Hsub) as Hwf.
    assert (Hn : nodes n = []).
    { destruct (nodes n) eqn:Hn; [done|].
      destruct (wf_splitting n Hwf) as [(_ & ? & _) _]; [by rewrite Hn | lia]. }
    split; [done|]. intros fuel qs. by apply leaf_at_cap.
  - intros b mo ml ps fuel root L Hne Hlen Hcl Hfuel.
    assert (Hf : fresh root).
    { split; [apply new_Quadtree_policy_ok | done]. }
    assert (HL : Z.to_nat (max_levels root - level root) = L).
    { subst L. f_equal. simpl. lia. }
    destruct (chain_shape L root ps Hf HL Hne) as (Hd & Hall & path & d & H);
      [lia | done |].
    exists (chain L root ps), path, d.
    split; [by apply insert_all_chain|]. tauto.
Qed.

Lemma depth_cap_witness :
  ∃ t path d,
    insert_all 5 [pt 1 1; pt 2 2; pt 3 3] scenario_root = Ok t ∧
    depth t = 4%nat ∧
    length path = 4%nat ∧ descend t path = Some d ∧
    nodes d = [] ∧ objects d = [pt 1 1; pt 2 2; pt 3 3] ∧
    all_points t = [pt 1 1; pt 2 2; pt 3 3].
Proof.
  apply (proj2 depth_cap (mkRect 0 0 100 100) (Some 2) (Some 4)
           [pt 1 1; pt 2 2; pt 3 3] 5%nat).
  - done.
  - simpl. lia.
  - vm_compute. reflexivity.
  - simpl. lia.
Defined.

(** C5: a leaf that [insert] splits ends the call with no objects of its
    own, every one of them and the new point being in its subnodes; and in
    a reachable tree every node that has subnodes has no objects. *)
Theorem split_nodes_hold_no_objects t n :
  reachable t → subnode n t →
  (nodes n ≠ [] → objects n = []) ∧
  ∀ fuel p n',
    nodes n = [] → insert fuel p n = Ok n' → nodes n' ≠ [] →
    objects n' = [] ∧
    concat (all_points <$> nodes n') ≡ₚ objects n ++ [p].
Proof.
  intros Hr Hsub. pose proof (wf_subnode n t (reachable_wf t Hr) Hsub) as Hwf.
  split.
  - intros Hn. by destruct (wf_splitting n Hwf Hn).
  - intros fuel p n' Hleaf Hins Hn'.
    destruct (insert_wf fuel p n n' Hwf Hins) as (Hwf' & _ & Hperm).
    destruct (wf_splitting n' Hwf' Hn') as [_ Ho]. split; [done|].
    rewrite !all_points_eq, Ho, Hleaf in Hperm. simpl in Hperm.
    by rewrite app_nil_r in Hperm.
Qed.

Lemma split_nodes_hold_no_objects_witness :
  (nodes scenario_tree ≠ [] → objects scenario_tree = []) ∧
  ∀ fuel p n',
    nodes scenario_tree = [] → insert fuel p scenario_tree = Ok n' →
    nodes n' ≠ [] →
    objects n' = [] ∧
    concat (all_points <$> nodes n') ≡ₚ objects scenario_tree ++ [p].
Proof.
  apply (split_nodes_hold_no_objects scenario_tree scenario_tree).
  - apply scenario_tree_reachable.
  - by exists [].
Defined.




(** C7: [clear] on a reachable tree leaves a node for which [retrieve]
    returns the empty sequence whatever the rectangle, with the bounds, level
    and policy it had and no subnodes; it is the node the constructor makes
    from these bounds, policy and level, so every later sequence of [insert]
    calls goes as on that fresh node. *)
Theorem clear_resets t :
  reachable t →
  (∀ pRect, retrieve pRect (clear t) = Ok []) ∧
  bounds (clear t) = bounds t ∧
  level (clear t) = level t ∧
  max_objects (clear t) = max_objects t ∧
  max_levels (clear t) = max_levels t ∧
  nodes (clear t) = [] ∧
  objects (clear t) = [] ∧
  let fresh := new_Quadtree (bounds t) (Some (max_objects t))
                 (Some (max_levels t)) (Some (level t)) in
  clear t = fresh ∧
  ∀ fuel points,
    insert_all fuel points (clear t) = insert_all fuel points fresh.
Proof.
  intros Hr. apply reachable_wf, wf_policy_ok in Hr.
  destruct Hr as (Hmo & Hml & Hw & Hh). rewrite clear_eq.
  do 7 (split; [done|]). cbv zeta.
  assert (Heq : set_objects [] (set_nodes [] t)
                = new_Quadtree (bounds t) (Some (max_objects t))
                    (Some (max_levels t)) (Some (level t))).
  { unfold new_Quadtree, set_objects, set_nodes.
    rewrite !or_default_some, or_default_level by done. simpl.
    rewrite <- Hw, <- Hh. by destruct (bounds t). }
  split; [done|]. intros fuel points. by rewrite Heq.
Qed.

Lemma clear_resets_witness :
  (∀ pRect, retrieve pRect (clear scenario_tree) = Ok []) ∧
  bounds (clear scenario_tree) = bounds scenario_tree ∧
  level (clear scenario_tree) = level scenario_tree ∧
  max_objects (clear scenario_tree) = max_objects scenario_tree ∧
  max_levels (clear scenario_tree) = max_levels scenario_tree ∧
  nodes (clear scenario_tree) = [] ∧
  objects (clear scenario_tree) = [] ∧
  clear scenario_tree = scenario_root ∧
  ∀ fuel points,
    insert_all fuel points (clear scenario_tree)
    = insert_all fuel points scenario_root.
Proof.
  apply (clear_resets scenario_tree).
  apply scenario_tree_reachable.
Defined.


(** C9: the constructor takes a supplied 0 for [max_objects], [max_levels]
    or [level] as if nothing was supplied, giving 10, 4 and 0; no
    constructed node has [max_objects = 0] or [max_levels = 0]; a negative
    value is stored as given. *)
Theorem constructor_defaults b mo ml lv (n : positive) :
  new_Quadtree b (Some 0) ml lv = new_Quadtree b None ml lv ∧
  new_Quadtree b mo (Some 0) lv = new_Quadtree b mo None lv ∧
  new_Quadtree b mo ml (Some 0) = new_Quadtree b mo ml None ∧
  max_objects (new_Quadtree b None ml lv) = 10 ∧
  max_levels (new_Quadtree b mo None lv) = 4 ∧
  level (new_Quadtree b mo ml None) = 0 ∧
  max_objects (new_Quadtree b mo ml lv) ≠ 0 ∧
  max_levels (new_Quadtree b mo ml lv) ≠ 0 ∧
  max_objects (new_Quadtree b (Some (Z.neg n)) ml lv) = Z.neg n ∧
  max_levels (new_Quadtree b mo (Some (Z.neg n)) lv) = Z.neg n ∧
  level (new_Quadtree b mo ml (Some (Z.neg n))) = Z.neg n.
Proof.
  repeat split; simpl; by apply or_default_nonzero.
Qed.



(** * Further properties of the code *)

(** X1: [insert] on a node of a reachable tree keeps the node's policy,
    level and bounds, keeps every point the subtree held and adds the new
    point once: the points of the subtree are those before and the new
    one, each as often. *)
Theorem insert_keeps_points t n fuel p n' :
  reachable t → subnode n t → insert fuel p n = Ok n' →
  header n' = header n ∧ all_points n' ≡ₚ all_points n ++ [p].
Proof.
  intros Hr Hsub Hins.
  pose proof (wf_subnode n t (reachable_wf t Hr) Hsub) as Hwf.
  by destruct (insert_wf fuel p n n' Hwf Hins) as (_ & ? & ?).
Qed.

Lemma insert_keeps_points_witness :
  ∃ n', insert 5 (pt 40 40) scenario_tree = Ok n' ∧
        header n' = header scenario_tree ∧
        all_points n' ≡ₚ all_points scenario_tree ++ [pt 40 40].
Proof.
  eexists. split; [vm_compute; reflexivity|].
  apply (insert_keeps_points scenario_tree scenario_tree 5 (pt 40 40)).
  - apply scenario_tree_reachable.
  - by exists [].
  - vm_compute. reflexivity.
Defined.

(** X2: [retrieve] on a reachable tree raises no error and returns stored
    points only, in the order node first, then subnodes by index, none more
    often than it is stored: the result is a subsequence of the points of
    the tree. *)
Theorem retrieve_returns_stored_points t (pRect : Rect) :
  reachable t →
  ∃ l, retrieve pRect t = Ok l ∧ sublist l (all_points t).
Proof. intros Hr. by apply retrieve_sublist, reachable_wf. Qed.

Lemma retrieve_returns_stored_points_witness :
  ∃ l, retrieve (mkRect 0 0 20 20) scenario_tree = Ok l ∧
       sublist l (all_points scenario_tree).
Proof.
  apply (retrieve_returns_stored_points scenario_tree (mkRect 0 0 20 20)).
  apply scenario_tree_reachable.
Defined.

(** X3: for rectangles that follow the convention, [hasIntersection]
    is true exactly when the node's bounds and the rectangle have a point in
    common, borders included. *)
Theorem hasIntersection_common_point c (r : Rect) :
  proper (bounds c) → proper r →
  (hasIntersection c r = true ↔ ∃ p, inside p (bounds c) ∧ inside p r).
Proof.
  intros [Hlr Hbt] [Hlr' Hbt']. split.
  - intros (H1 & H2 & H3 & H4)%hasIntersection_true.
    destruct (common_coordinate (left (bounds c)) (left r)
                (right (bounds c)) (right r)) as (x & ? & ? & ? & ?); try done.
    destruct (common_coordinate (bottom (bounds c)) (bottom r)
                (top (bounds c)) (top r)) as (y & ? & ? & ? & ?); try done.
    exists (mkPoint x y 0). by repeat split.
  - intros (p & Hc & Hr). by apply (inside_hasIntersection c r p).
Qed.

Lemma hasIntersection_common_point_witness :
  hasIntersection scenario_root (mkRect 100 100 120 120) = true ↔
  ∃ p, inside p (bounds scenario_root) ∧ inside p (mkRect 100 100 120 120).
Proof.
  apply (hasIntersection_common_point scenario_root (mkRect 100 100 120 120)).
  - numbers.
  - numbers.
Defined.

(** X4: on a node with subnodes of a reachable tree, [getIndexForRect]
    returns indices among 0, 1, 2, 3 in ascending order, none twice; an
    index is returned exactly when the node's bounds lie in the rectangle
    or the subnode at that index intersects the rectangle. *)
Theorem getIndexForRect_indices t n (pRect : Rect) :
  reachable t → subnode n t → nodes n ≠ [] →
  ∃ idx, getIndexForRect n pRect = Ok idx ∧
    sublist idx ALL_NODES ∧
    ∀ (k : nat) c, nodes n !! k = Some c →
      (Z.of_nat k ∈ idx ↔
       within (bounds n) pRect ∨ hasIntersection c pRect = true).
Proof.
  intros Hr Hsub Hn.
  pose proof (wf_subnode n t (reachable_wf t Hr) Hsub) as Hwf.
  destruct (wf_four n Hwf Hn) as (c0 & c1 & c2 & c3 & Hfour).
  eexists. split; [by apply (getIndexForRect_four n pRect c0 c1 c2 c3)|].
  split.
  - unfold ALL_NODES.
    change [0; 1; 2; 3] with ([0] ++ [1] ++ [2] ++ [3]).
    repeat (apply sublist_app; [by apply pick_sublist_all|]).
    by apply pick_sublist_all.
  - intros k c Hc. rewrite Hfour in Hc.
    rewrite <- bounds_in_within, <- orb_true_iff.
    rewrite !elem_of_app, !elem_of_pick_one.
    destruct k as [|[|[|[|k]]]]; simplify_eq/=; intuition lia.
Qed.

Lemma getIndexForRect_indices_witness :
  ∃ idx, getIndexForRect scenario_tree (mkRect 60 60 100 100) = Ok idx ∧
    sublist idx ALL_NODES ∧
    ∀ (k : nat) c, nodes scenario_tree !! k = Some c →
      (Z.of_nat k ∈ idx ↔
       within (bounds scenario_tree) (mkRect 60 60 100 100)
       ∨ hasIntersection c (mkRect 60 60 100 100) = true).
Proof.
  apply (getIndexForRect_indices scenario_tree scenario_tree).
  - apply scenario_tree_reachable.
  - by exists [].
  - done.
Defined.

(** X5: in doubles, the shortcut of [getIndexForRect] agrees with the loop
    it skips when the computed midpoints lie between the borders: on a node
    that [split] has given its four subnodes and whose bounds lie in the
    rectangle, the loop over the subnodes returns all four indices as
    well. *)
Theorem getIndexForRect_shortcut_doubles b mo ml lv objs pRect :
  let n :=
    Doubles.split (Doubles.set_objects objs (Doubles.new_Quadtree b mo ml lv)) in
  Doubles.midpoints_between n →
  Doubles.within (Doubles.rect (Doubles.bounds n)) pRect →
  Doubles.getIndexForRect n pRect = Ok ALL_NODES ∧
  Doubles.intersecting n pRect 0 4 = Ok ALL_NODES.
Proof.
  cbv zeta. intros (Hl & Hr & Hb & Ht) (Hwl & Hwr & Hwb & Hwt).
  cbn [Doubles.split Doubles.bounds Doubles.set_nodes Doubles.set_objects
       Doubles.new_Quadtree Doubles.rect Doubles.left Doubles.right
       Doubles.top Doubles.bottom] in Hwl, Hwr, Hwb, Hwt.
  unfold Doubles.horMidpoint, Doubles.verMidpoint in Hl, Hr, Hb, Ht.
  cbn [Doubles.split Doubles.bounds Doubles.set_nodes Doubles.set_objects
       Doubles.new_Quadtree Doubles.rect Doubles.left Doubles.right
       Doubles.top Doubles.bottom Doubles.width Doubles.height]
    in Hl, Hr, Hb, Ht.
  split.
  { unfold Doubles.getIndexForRect.
    cbn [Doubles.split Doubles.bounds Doubles.set_nodes Doubles.set_objects
         Doubles.new_Quadtree Doubles.rect Doubles.left Doubles.right
         Doubles.top Doubles.bottom].
    by rewrite Hwl, Hwr, Hwb, Hwt. }
  unfold Doubles.intersecting, Doubles.node_at, at_index.
  rewrite (doubles_split_nodes b mo ml lv objs). simpl.
  unfold Doubles.hasIntersection. simpl.
  rewrite !leb_not_ltb by chain. done.
Qed.

Lemma getIndexForRect_shortcut_doubles_witness :
  Doubles.getIndexForRect (Doubles.split Doubles.hundred_root)
    (Doubles.mkRect (-1) (-1) 101 101) = Ok ALL_NODES ∧
  Doubles.intersecting (Doubles.split Doubles.hundred_root)
    (Doubles.mkRect (-1) (-1) 101 101) 0 4 = Ok ALL_NODES.
Proof.
  apply (getIndexForRect_shortcut_doubles (Doubles.mkRect 0 0 100 100)
           (Some 2) (Some 4) None []).
  - repeat split; vm_compute; reflexivity.
  - repeat split; vm_compute; reflexivity.
Defined.

(** Without the condition on the midpoints the loop and the shortcut
    differ: on bounds [[-2^1023, 2^1023] x [0, 1]], which lie in the
    rectangle, the loop returns the indices 1 and 2 only. *)
Example getIndexForRect_shortcut_overflow :
  Doubles.getIndexForRect (Doubles.split Doubles.wide_root)
    (Doubles.mkRect (-0x1p1023) 0 0x1p1023 1) = Ok ALL_NODES ∧
  Doubles.intersecting (Doubles.split Doubles.wide_root)
    (Doubles.mkRect (-0x1p1023) 0 0x1p1023 1) 0 4 = Ok [1; 2].
Proof. split; vm_compute; reflexivity. Qed.

(** X6: on a node without subnodes [getIndexForRect] returns all four
    indices when the node's bounds lie in the rectangle and raises a type
    error otherwise; [retrieve] does not call it there and returns the
    node's objects. *)
Theorem getIndexForRect_leaf t (pRect : Rect) :
  nodes t = [] →
  (within (bounds t) pRect → getIndexForRect t pRect = Ok ALL_NODES) ∧
  (¬ within (bounds t) pRect → getIndexForRect t pRect = TypeError) ∧
  retrieve pRect t = Ok (objects t).
Proof.
  intros Hn. rewrite getIndexForRect_eq, retrieve_eq.
  rewrite (proj2 (node0_defined_false t) Hn).
  split; [|split; [|done]].
  - intros Hin. by rewrite (proj2 (bounds_in_within t pRect) Hin).
  - intros Hout. destruct (bounds_in t pRect) eqn:Hb.
    + by apply bounds_in_within in Hb.
    + unfold intersecting, node_at, at_index. by rewrite Hn.
Qed.

Lemma getIndexForRect_leaf_witness :
  (within (bounds scenario_root) (mkRect 0 0 50 50) →
   getIndexForRect scenario_root (mkRect 0 0 50 50) = Ok ALL_NODES) ∧
  (¬ within (bounds scenario_root) (mkRect 0 0 50 50) →
   getIndexForRect scenario_root (mkRect 0 0 50 50) = TypeError) ∧
  retrieve (mkRect 0 0 50 50) scenario_root = Ok (objects scenario_root).
Proof. apply (getIndexForRect_leaf scenario_root (mkRect 0 0 50 50)). done. Defined.

(** X7: [retrieve] grows with the rectangle: on a reachable tree, what it
    returns for a rectangle is a subsequence of what it returns for any
    rectangle that holds the first. *)
Theorem retrieve_monotone t (r r' : Rect) :
  reachable t → within r r' →
  ∃ l l', retrieve r t = Ok l ∧ retrieve r' t = Ok l' ∧ sublist l l'.
Proof. intros Hr Hin. by apply retrieve_mono; [apply reachable_wf|]. Qed.

Lemma retrieve_monotone_witness :
  ∃ l l', retrieve (mkRect 0 0 20 20) scenario_tree = Ok l ∧
          retrieve (mkRect 0 0 50 50) scenario_tree = Ok l' ∧ sublist l l'.
Proof.
  apply (retrieve_monotone scenario_tree (mkRect 0 0 20 20) (mkRect 0 0 50 50)).
  - apply scenario_tree_reachable.
  - numbers.
Defined.

(** X8: in a reachable tree a stored point that lies in the root's bounds
    lies in the bounds of the node that holds it, borders included. *)
Theorem stored_point_in_node_bounds t path n p :
  reachable t → descend t path = Some n → p ∈ objects n →
  inside p (bounds t) → inside p (bounds n).
Proof.
  intros Hr Hd Hp Hin.
  apply (wf_descend_inside t path n p); [by apply reachable_wf|done| |done].
  by apply objects_all_points.
Qed.

Lemma stored_point_in_node_bounds_witness :
  ∃ n, descend scenario_tree [1; 3]%nat = Some n ∧ inside (pt 30 30) (bounds n).
Proof.
  eexists. split; [vm_compute; reflexivity|].
  apply (stored_point_in_node_bounds scenario_tree [1; 3]%nat _ (pt 30 30)).
  - apply scenario_tree_reachable.
  - vm_compute. reflexivity.
  - simpl. by left.
  - numbers.
Defined.

(** X9: in a reachable tree a node without subnodes whose level is below
    [max_levels] holds at most [max_objects] objects (none when
    [max_objects] is negative). *)
Theorem leaf_within_capacity t path n :
  reachable t → descend t path = Some n →
  nodes n = [] → level n < max_levels n →
  Z.of_nat (length (objects n)) ≤ Z.max 0 (max_objects n).
Proof.
  intros Hr Hd Hn Hlv.
  pose proof (capped_descend t path n (reachable_capped t Hr) Hd) as Hc.
  destruct Hc as [n _ Hcap|n Hne _]; [by apply Hcap | done].
Qed.

Lemma leaf_within_capacity_witness :
  ∃ n, descend scenario_tree [1; 1]%nat = Some n ∧
       Z.of_nat (length (objects n)) ≤ Z.max 0 (max_objects n).
Proof.
  eexists. split; [vm_compute; reflexivity|].
  apply (leaf_within_capacity scenario_tree [1; 1]%nat).
  - apply scenario_tree_reachable.
  - vm_compute. reflexivity.
  - done.
  - simpl. lia.
Defined.





(** X13: on a reachable tree whose root has subnodes and bounds that follow
    the convention, every point that [retrieve] returns is held by a node
    without subnodes whose bounds intersect the rectangle. *)
Theorem retrieve_from_intersecting_leaves t (pRect : Rect) l p :
  reachable t → proper (bounds t) → nodes t ≠ [] →
  retrieve pRect t = Ok l → p ∈ l →
  ∃ path n, descend t path = Some n ∧ nodes n = [] ∧ p ∈ objects n ∧
            hasIntersection n pRect = true.
Proof.
  intros Hr Hpr Hn Hret Hp.
  destruct (retrieve_precise pRect t (reachable_wf t Hr) Hpr)
    as (l' & Hl' & Hfrom); [done|].
  apply Hfrom. congruence.
Qed.

Lemma retrieve_from_intersecting_leaves_witness :
  ∃ path n, descend scenario_tree path = Some n ∧ nodes n = [] ∧
            pt 30 30 ∈ objects n ∧
            hasIntersection n (mkRect 0 0 25 25) = true.
Proof.
  apply (retrieve_from_intersecting_leaves scenario_tree (mkRect 0 0 25 25)
           scenario_points (pt 30 30)).
  - apply scenario_tree_reachable.
  - numbers.
  - done.
  - vm_compute. reflexivity.
  - unfold scenario_points. repeat constructor.
Defined.



(** X15: a node without subnodes of a reachable tree stays without
    subnodes under [insert], with the new point appended to its objects,
    exactly when the appended list has at most [max_objects] objects or the
    node's level is not below [max_levels]; otherwise it comes back
    split. *)
Theorem insert_splits_past_capacity t n fuel p n' :
  reachable t → subnode n t → nodes n = [] → insert fuel p n = Ok n' →
  (nodes n' = [] ↔
   Z.of_nat (length (objects n)) + 1 ≤ max_objects n
   ∨ max_levels n ≤ level n) ∧
  (nodes n' = [] → objects n' = objects n ++ [p]).
Proof.
  intros Hr Hsub Hn Hins.
  pose proof (wf_subnode n t (reachable_wf t Hr) Hsub) as Hwf.
  pose proof (wf_policy_ok _ Hwf) as Hpol.
  destruct fuel as [|fuel]; [done|].
  rewrite insert_leaf in Hins by done. cbn zeta in Hins.
  set (n1 := set_objects (objects n ++ [p]) n) in *.
  assert (Hlen : Z.of_nat (length (objects n1))
                 = Z.of_nat (length (objects n)) + 1).
  { subst n1. simpl. rewrite length_app. simpl. lia. }
  destruct (Z.gtb_spec (Z.of_nat (length (objects n1))) (max_objects n));
    destruct (Z.ltb_spec (level n) (max_levels n)); simpl in Hins;
    try (injection Hins as <-; split; [split; [lia | done] | done]).
  destruct (split_leaf n1 Hpol Hn) as (Hs & Hh & Ho & _); [done|].
  destruct (redistribute_spec _ (insert_wf fuel) _ _ _ Hs Ho Hins)
    as (Hs' & _).
  pose proof (splitting_nonempty n' Hs'). split; [split; [done | lia] | done].
Qed.

Lemma insert_splits_past_capacity_witness :
  ∃ n', insert 5 (pt 20 20) (tree_of (insert 5 (pt 10 10) scenario_root)
                                scenario_root) = Ok n' ∧
    (nodes n' = [] ↔
     Z.of_nat (length [pt 10 10]) + 1 ≤ 2 ∨ (4 ≤ 0)) ∧
    (nodes n' = [] → objects n' = [pt 10 10] ++ [pt 20 20]).
Proof.
  eexists. split; [vm_compute; reflexivity|].
  apply (insert_splits_past_capacity
           (tree_of (insert 5 (pt 10 10) scenario_root) scenario_root)
           (tree_of (insert 5 (pt 10 10) scenario_root) scenario_root)
           5 (pt 20 20)).
  - apply (reach_insert 5 (pt 10 10) scenario_root); [apply reach_new|].
    vm_compute. reflexivity.
  - by exists [].
  - done.
  - vm_compute. reflexivity.
Defined.

(** X16: in a tree made from a constructed root by calls of [insert], the
    objects of every node are in the order in which they were inserted: a
    subsequence of the inserted points. *)
Theorem objects_in_insertion_order fuel b mo ml lv points t path n :
  insert_all fuel points (new_Quadtree b mo ml lv) = Ok t →
  descend t path = Some n →
  sublist (objects n) points.
Proof.
  intros Hall Hd. apply (in_order_descend points t path n); [|done].
  apply (insert_all_in_order fuel points [] (new_Quadtree b mo ml lv) t);
    [apply new_Quadtree_wf | | done].
  apply fresh_in_order. split; [apply new_Quadtree_policy_ok | done].
Qed.

Lemma objects_in_insertion_order_witness :
  ∃ n, descend scenario_tree [1; 1]%nat = Some n ∧
       sublist (objects n) scenario_points.
Proof.
  eexists. split; [vm_compute; reflexivity|].
  apply (objects_in_insertion_order 5 (mkRect 0 0 100 100) (Some 2) (Some 4)
           None scenario_points scenario_tree [1; 1]%nat).
  - vm_compute. reflexivity.
  - vm_compute. reflexivity.
Defined.

(** X18: on a node with subnodes of a reachable tree, [insert] changes the
    subnode at the index [getIndexForPoint] gives for the point and nothing
    else: the new point goes into that subtree, the other subnodes are the
    same nodes as before, and the node still has no objects of its own. *)
Theorem insert_routes_to_one_subnode t n fuel p n' :
  reachable t → subnode n t → nodes n ≠ [] → insert fuel p n = Ok n' →
  ∃ (i : nat) c c',
    getIndexForPoint n p = Z.of_nat i ∧
    nodes n !! i = Some c ∧
    nodes n' = <[i:=c']> (nodes n) ∧
    all_points c' ≡ₚ all_points c ++ [p] ∧
    objects n' = [].
Proof.
  intros Hr Hsub Hn Hins.
  pose proof (wf_subnode n t (reachable_wf t Hr) Hsub) as Hwf.
  destruct (wf_splitting n Hwf Hn) as [(_ & _ & _ & _ & Hwfc) Ho].
  destruct fuel as [|fuel]; [done|].
  rewrite insert_split in Hins by done. unfold insert_at in Hins.
  pose proof (getIndexForPoint_range n p) as Hrange.
  destruct (Z_of_nat_complete (getIndexForPoint n p)) as [i Hi]; [lia|].
  rewrite Hi, node_at_nat in Hins.
  destruct (nodes n !! i) as [c|] eqn:Hc; [|done].
  destruct (insert fuel p c) as [c'| |] eqn:Hc'; [|done..].
  injection Hins as <-.
  destruct (insert_wf fuel p c c' (Hwfc i c Hc) Hc') as (_ & _ & Hperm).
  exists i, c, c'. cbn [nodes objects set_nodes]. by rewrite Nat2Z.id.
Qed.

Lemma insert_routes_to_one_subnode_witness :
  ∃ (i : nat) c c',
    getIndexForPoint scenario_tree (pt 70 80) = Z.of_nat i ∧
    nodes scenario_tree !! i = Some c ∧
    nodes (tree_of (insert 5 (pt 70 80) scenario_tree) scenario_root)
    = <[i:=c']> (nodes scenario_tree) ∧
    all_points c' ≡ₚ all_points c ++ [pt 70 80] ∧
    objects (tree_of (insert 5 (pt 70 80) scenario_tree) scenario_root) = [].
Proof.
  apply (insert_routes_to_one_subnode scenario_tree scenario_tree 5
           (pt 70 80)).
  - apply scenario_tree_reachable.
  - by exists [].
  - done.
  - vm_compute. reflexivity.
Defined.
